(** * vidshort: connection cache, credential verifier, registration and
      route authorization, embedded from the TypeScript sources.

    Files embedded:
    - [src/lib/db.ts]           (connectToDatabase)
    - [src/lib/auth.ts]         (authOptions.providers[0].authorize)
    - the User model            (userSchema, its pre-save hook)
    - the registration route    (POST)
    - the route middleware      (authorized callback, config.matcher) *)

From Stdlib Require Import String Ascii List Bool Arith Lia.
From Stdlib Require QArith.
From stdpp Require Import base option list gmap pretty.
Import ListNotations.
Local Open Scope string_scope.
Local Open Scope list_scope.

(** ** JavaScript values the sources rely on *)

(** [!s] on a string: only the empty string is falsy. *)
Definition str_truthy (s : string) : bool :=
  match s with
  | EmptyString => false
  | String _ _ => true
  end.

(** [!x] on a possibly absent string ([undefined] is falsy as well). *)
Definition opt_truthy (o : option string) : bool :=
  match o with
  | Some s => str_truthy s
  | None => false
  end.

(** [s.startsWith(p)] *)
Definition startsWith (s p : string) : bool := String.prefix p s.

(** A thrown [new Error(message)]. *)
Record JsError := Error { message : string }.

(** Outcome of a call that either returns or throws. *)
Inductive outcome (A : Type) : Type :=
| Return (a : A)
| Throw (e : JsError).
Arguments Return {A} a.
Arguments Throw {A} e.

#[global] Instance outcome_ret : MRet outcome := fun _ a => Return a.
#[global] Instance outcome_bind : MBind outcome := fun _ _ k m =>
  match m with
  | Return a => k a
  | Throw e => Throw e
  end.

(** [try { body } catch (error) { handler(error) }] *)
Definition try_catch {A} (body : outcome A) (handler : JsError -> outcome A)
  : outcome A :=
  match body with
  | Return a => Return a
  | Throw e => handler e
  end.

(** ** Route middleware *)

Module Middleware.

(** The session token handed to the callback: a decoded JWT or [null]. *)
Record JWT := { token_id : string }.

(** [authorized: ({ token, req }) => ...] with [pathname = req.nextUrl.pathname]. *)
Definition authorized (token : option JWT) (pathname : string) : bool :=
  if startsWith pathname "/api/auth"
     || startsWith pathname "/login"
     || startsWith pathname "/register"
  then true
  else if String.eqb pathname "/" || startsWith pathname "/api/videos"
  then true
  else match token with
       | Some _ => true
       | None => false
       end.

(** *** The matcher of [config] *)

(** The one entry of [config.matcher], as written in the source. *)
Definition matcher_source : string :=
  "/((?!api|_next/static|_next/image|favicon.ico).*) ".

(** The framework compiles each matcher source with path-to-regexp,
    after putting an optional data-route prefix in front of it and an
    optional json suffix behind it, and runs the middleware on a request
    exactly when the resulting anchored expression matches the request
    pathname.  Every literal character of the source, the blank before
    its closing quote included, becomes a literal of the expression. *)
Definition matcher_regexp : string :=
  "^(?:\/(_next\/data\/[^/]{1,}))?(?:\/((?!api|_next\/static|_next\/image|favicon.ico).*)) (.json)?[\/#\?]?$".

Inductive charset :=
| Dot                       (* [.]   : anything but a line terminator *)
| OneOf (cs : string)       (* [[cs]]  *)
| NoneOf (cs : string).     (* [[^cs]] *)

Fixpoint str_mem (c : ascii) (cs : string) : bool :=
  match cs with
  | EmptyString => false
  | String d cs' => Ascii.eqb c d || str_mem c cs'
  end.

Definition in_charset (cls : charset) (c : ascii) : bool :=
  match cls with
  | Dot => negb (Ascii.eqb c "010" || Ascii.eqb c "013")
  | OneOf cs => str_mem c cs
  | NoneOf cs => negb (str_mem c cs)
  end.

Inductive regex :=
| Lit (l : string)          (* a run of literal characters *)
| Cls (cls : charset)       (* one character of a class *)
| Star (cls : charset)      (* [cls*] *)
| Plus (cls : charset)      (* [cls{1,}] *)
| Seq (r1 r2 : regex)
| Alt (r1 r2 : regex)       (* [r1|r2] *)
| Opt (r : regex)           (* [r?] *)
| NegAhead (r : regex).     (* [(?!r)] *)

(** [strip l s]: the rest of [s] behind its prefix [l], if [l] is one. *)
Fixpoint strip (l s : string) : option string :=
  match l, s with
  | EmptyString, _ => Some s
  | String a l', String b s' => if Ascii.eqb a b then strip l' s' else None
  | String _ _, EmptyString => None
  end.

Fixpoint star (cls : charset) (s : string) (k : string -> bool) : bool :=
  match s with
  | EmptyString => k s
  | String c s' => (in_charset cls c && star cls s' k) || k s
  end.

(** Backtracking matcher: [k] receives what is left of the input. *)
Fixpoint rmatch (r : regex) (s : string) (k : string -> bool) : bool :=
  match r with
  | Lit l => match strip l s with Some s' => k s' | None => false end
  | Cls cls =>
      match s with
      | String c s' => in_charset cls c && k s'
      | EmptyString => false
      end
  | Star cls => star cls s k
  | Plus cls =>
      match s with
      | String c s' => in_charset cls c && star cls s' k
      | EmptyString => false
      end
  | Seq r1 r2 => rmatch r1 s (fun s' => rmatch r2 s' k)
  | Alt r1 r2 => rmatch r1 s k || rmatch r2 s k
  | Opt r1 => rmatch r1 s k || k s
  | NegAhead r1 => negb (rmatch r1 s (fun _ => true)) && k s
  end.

(** [^r$] *)
Definition full_match (r : regex) (s : string) : bool :=
  rmatch r s (fun rest => String.eqb rest "").

(** [api|_next/static|_next/image|favicon.ico] *)
Definition excluded_roots : regex :=
  Alt (Lit "api")
      (Alt (Lit "_next/static")
           (Alt (Lit "_next/image")
                (Seq (Lit "favicon") (Seq (Cls Dot) (Lit "ico"))))).

(** [matcher_regexp] as a term, without its anchors. *)
Definition matcher : regex :=
  Seq (Opt (Seq (Lit "/") (Seq (Lit "_next/data/") (Plus (NoneOf "/")))))
      (Seq (Seq (Lit "/") (Seq (NegAhead excluded_roots) (Star Dot)))
           (Seq (Lit " ")
                (Seq (Opt (Seq (Cls Dot) (Lit "json")))
                     (Opt (Cls (OneOf "/#?")))))).

(** The middleware runs on [pathname]. *)
Definition selects (pathname : string) : bool := full_match matcher pathname.

(** [pathname] is in the declared excluded set: a root of the lookahead
    follows its leading slash. *)
Definition excluded (pathname : string) : bool :=
  rmatch (Seq (Lit "/") excluded_roots) pathname (fun _ => true).

(** [withAuth] lets some requests through before it asks the callback:
    those under the auth route, the sign-in and error pages, and those
    under [/_next] or [/favicon.ico].  No [pages] option is handed to
    [withAuth] here, so the two pages are the library's own. *)
Definition passes_unasked (pathname : string) : bool :=
  startsWith pathname "/api/auth"
  || String.eqb pathname "/api/auth/signin"
  || String.eqb pathname "/api/auth/error"
  || startsWith pathname "/_next"
  || startsWith pathname "/favicon.ico".

(** What a request meets before the application logic: [None] when the
    callback is not asked (the matcher does not select the pathname, or
    [withAuth] lets it through), otherwise the verdict of [authorized]. *)
Definition guard (token : option JWT) (pathname : string) : option bool :=
  if selects pathname then
    if passes_unasked pathname then None
    else Some (authorized token pathname)
  else None.

End Middleware.


(** ** Connection cache ([src/lib/db.ts]) *)

Module Db.

(** A connection handle ([mongoose.connection]). *)
Definition Connection := nat.

(** Promises made by [mongoose.connect(...).then(...)], named by their
    creation index. *)
Definition PromiseId := nat.

Inductive promise_state :=
| Pending
| Fulfilled (h : Connection)
| Rejected.

(** [cached = { conn, promise }] *)
Record Cached := { conn : option Connection; promise : option PromiseId }.

(** The error thrown at line 49. *)
Definition connection_failed : JsError :=
  Error "❌ Database connection failed.".

(** A call of [connectToDatabase]: suspended at its [await], or settled. *)
Inductive call_state :=
| Awaiting (p : PromiseId)
| Done (r : outcome Connection).

(** The module state shared by all calls.  [promises] has one entry per
    [mongoose.connect] that was started. *)
Record state := {
  cached : Cached;
  promises : list promise_state;
  calls : gmap nat call_state
}.

(** [let cached = global.mongoose || { conn: null, promise: null }] with
    nothing stored globally. *)
Definition init : state :=
  {| cached := {| conn := None; promise := None |};
     promises := [];
     calls := ∅ |}.

(** What can happen next: a new call runs up to its [await]; the driver
    settles a pending attempt; a suspended call whose promise is settled
    runs to its end. *)
Inductive event :=
| Call (c : nat)
| Resolve (p : PromiseId) (h : Connection)
| Reject (p : PromiseId)
| Resume (c : nat).

(** Lines 28-41 and the suspension at line 45. *)
Definition begin (c : nat) (s : state) : state :=
  match conn (cached s) with
  | Some h =>
      {| cached := cached s; promises := promises s;
         calls := <[c := Done (Return h)]> (calls s) |}
  | None =>
      match promise (cached s) with
      | None =>
          let p := length (promises s) in
          {| cached := {| conn := None; promise := Some p |};
             promises := promises s ++ [Pending];
             calls := <[c := Awaiting p]> (calls s) |}
      | Some p =>
          {| cached := cached s; promises := promises s;
             calls := <[c := Awaiting p]> (calls s) |}
      end
  end.

(** Lines 45-53, once the awaited promise is settled. *)
Definition resume (c : nat) (p : PromiseId) (s : state) : option state :=
  match promises s !! p with
  | Some (Fulfilled h) =>
      Some {| cached := {| conn := Some h; promise := promise (cached s) |};
              promises := promises s;
              calls := <[c := Done (Return h)]> (calls s) |}
  | Some Rejected =>
      Some {| cached := {| conn := conn (cached s); promise := None |};
              promises := promises s;
              calls := <[c := Done (Throw connection_failed)]> (calls s) |}
  | Some Pending | None => None
  end.

Definition settle (p : PromiseId) (v : promise_state) (s : state) : option state :=
  match promises s !! p with
  | Some Pending =>
      Some {| cached := cached s;
              promises := <[p := v]> (promises s);
              calls := calls s |}
  | _ => None
  end.

(** [None]: the event is not enabled in [s]. *)
Definition step (e : event) (s : state) : option state :=
  match e with
  | Call c =>
      match calls s !! c with
      | None => Some (begin c s)
      | Some _ => None
      end
  | Resolve p h => settle p (Fulfilled h) s
  | Reject p => settle p Rejected s
  | Resume c =>
      match calls s !! c with
      | Some (Awaiting p) => resume c p s
      | _ => None
      end
  end.

Fixpoint run (tr : list event) (s : state) : option state :=
  match tr with
  | [] => Some s
  | e :: tr' =>
      match step e s with
      | Some s' => run tr' s'
      | None => None
      end
  end.

(** Number of connection attempts started so far. *)
Definition attempts (s : state) : nat := length (promises s).

(** No call has settled, with a handle or with an error. *)
Definition none_settled (s : state) : Prop :=
  forall c r, calls s !! c <> Some (Done r).

(** No call has returned a handle. *)
Definition none_succeeded (s : state) : Prop :=
  forall c h, calls s !! c <> Some (Done (Return h)).

(** The first flight: nothing cached, and every call so far suspended on
    the one attempt, which is the stored one. *)
Definition first_flight (s : state) : Prop :=
  conn (cached s) = None /\
  (forall c st, calls s !! c = Some st ->
     st = Awaiting 0 /\ promise (cached s) = Some 0) /\
  match promise (cached s) with
  | None => promises s = [] /\ calls s = ∅
  | Some p => p = 0 /\ length (promises s) = 1
  end.

(** Call [c] stands or fell with attempt [p]. *)
Definition follows (p : PromiseId) (c : nat) (s : state) : Prop :=
  calls s !! c = Some (Awaiting p) \/
  (exists h, promises s !! p = Some (Fulfilled h) /\
             calls s !! c = Some (Done (Return h))) \/
  (promises s !! p = Some Rejected /\
   calls s !! c = Some (Done (Throw connection_failed))).

(** Every stored or awaited promise is one that was made. *)
Definition well_formed (s : state) : Prop :=
  (forall p, promise (cached s) = Some p -> p < length (promises s)) /\
  (forall c p, calls s !! c = Some (Awaiting p) -> p < length (promises s)).

End Db.

(** ** The hashing library *)

(** The two [bcryptjs] entry points the sources call.  [hash s rounds]
    draws a salt; the salt drawn is made an argument here.  The one law
    is the library's contract between them. *)
Class Bcrypt := {
  bcrypt_hash : string -> nat -> string -> string;   (* plaintext, rounds, salt *)
  bcrypt_compare : string -> string -> bool;          (* plaintext, stored hash *)
  compare_hash : forall s rounds salt,
    bcrypt_compare s (bcrypt_hash s rounds salt) = true
}.


(** ** The User model *)

Module User.

Definition ObjectId := nat.
Definition Date := nat.

(** [interface IUser] *)
Record IUser := {
  email : string;
  password : string;
  _id : ObjectId;
  createdAt : Date;
  updatedAt : Date
}.

(** The collection, in insertion order. *)
Definition Store := list IUser.

(** A document in memory: its fields, whether it was never saved, and
    the paths assigned since it was loaded or saved. *)
Record Document := {
  fields : IUser;
  isNew : bool;
  modifiedPaths : list string
}.

(** [this.isModified(path)] *)
Definition isModified (this : Document) (path : string) : bool :=
  existsb (String.eqb path) (modifiedPaths this).

Definition with_password (u : IUser) (pw : string) : IUser :=
  {| email := email u; password := pw; _id := _id u;
     createdAt := createdAt u; updatedAt := updatedAt u |}.

(** [doc.password = pw]: an assignment of the value already held leaves
    the path unmodified. *)
Definition set_password (this : Document) (pw : string) : Document :=
  if String.eqb pw (password (fields this)) then this
  else {| fields := with_password (fields this) pw;
          isNew := isNew this;
          modifiedPaths := "password" :: modifiedPaths this |}.

Section Hook.
Context `{Bcrypt}.

(** [userSchema.pre("save", ...)]; [salt] is the salt [bcrypt.hash] draws. *)
Definition pre_save (salt : string) (this : Document) : Document :=
  if isModified this "password"
  then {| fields := with_password (fields this)
                      (bcrypt_hash (password (fields this)) 10 salt);
          isNew := isNew this;
          modifiedPaths := modifiedPaths this |}
  else this.

End Hook.

(** Operations on the collection run in a state-and-exception monad. *)
Definition DbM (A : Type) : Type := Store -> outcome A * Store.

Definition db_ret {A} (a : A) : DbM A := fun st => (Return a, st).
Definition db_throw {A} (e : JsError) : DbM A := fun st => (Throw e, st).
Definition db_bind {A B} (m : DbM A) (k : A -> DbM B) : DbM B :=
  fun st =>
    match m st with
    | (Return a, st') => k a st'
    | (Throw e, st') => (Throw e, st')
    end.
Definition db_try {A} (body : DbM A) (handler : JsError -> DbM A) : DbM A :=
  fun st =>
    match body st with
    | (Return a, st') => (Return a, st')
    | (Throw e, st') => handler e st'
    end.
Definition db_lift {A} (o : outcome A) : DbM A := fun st => (o, st).

(** [User.findOne({ email })] *)
Definition findOne (e : string) : DbM (option IUser) :=
  fun st => (Return (find (fun u => String.eqb (email u) e) st), st).

(** Schema validation: both paths are [required], which an empty string
    does not satisfy. *)
Definition validate (this : Document) : outcome unit :=
  if str_truthy (email (fields this)) && str_truthy (password (fields this))
  then Return tt
  else Throw (Error "User validation failed").

(** The write of a validated, hooked document: an insert for a new
    document (refused by the unique index on [email]), otherwise an
    update of the modified paths of the record with the same [_id]. *)
Definition update_record (now : Date) (this : Document) (u : IUser) : IUser :=
  {| email := if isModified this "email" then email (fields this) else email u;
     password := if isModified this "password"
                 then password (fields this) else password u;
     _id := _id u;
     createdAt := createdAt u;
     updatedAt := now |}.

Definition persist (now : Date) (this : Document) : DbM unit :=
  fun st =>
    if isNew this then
      match find (fun u => String.eqb (email u) (email (fields this))) st with
      | Some _ => (Throw (Error "E11000 duplicate key error"), st)
      | None =>
          (Return tt,
           st ++ [ {| email := email (fields this);
                      password := password (fields this);
                      _id := _id (fields this);
                      createdAt := now; updatedAt := now |} ])
      end
    else
      match modifiedPaths this with
      | [] => (Return tt, st)
      | _ :: _ =>
          (Return tt,
           map (fun u => if Nat.eqb (_id u) (_id (fields this))
                         then update_record now this u else u) st)
      end.

Section Save.
Context `{Bcrypt}.

(** [doc.save()]: validation, then the pre-save hook, then the write. *)
Definition save (now : Date) (salt : string) (this : Document) : DbM unit :=
  db_bind (db_lift (validate this)) (fun _ =>
  persist now (pre_save salt this)).

(** [User.create({ email, password })] with [oid] the identifier drawn
    for the new document. *)
Definition create (oid : ObjectId) (now : Date) (salt : string)
    (e pw : string) : DbM unit :=
  save now salt
    {| fields := {| email := e; password := pw; _id := oid;
                    createdAt := now; updatedAt := now |};
       isNew := true;
       modifiedPaths := ["email"; "password"] |}.

End Save.

(** The unique index on [email]. *)
Definition unique_emails (st : Store) : Prop := NoDup (map email st).

End User.

(** ** Registration endpoint *)

Module Register.

(** The parsed JSON body; a key may be absent. *)
Record Body := { email : option string; password : option string }.

(** [NextResponse.json({ key: text }, { status })] *)
Record Response := { key : string; text : string; status : nat }.

(** What the handler draws from its environment during one request. *)
Record Env := {
  connect : outcome Db.Connection;   (* outcome of [await connectToDatabase()] *)
  oid : User.ObjectId;
  now : User.Date;
  salt : string
}.

Section Handler.
Context `{Bcrypt}.

(** [export async function POST(request)]; [json] is the outcome of
    [await request.json()]. *)
Definition POST (env : Env) (json : outcome Body) : User.DbM Response :=
  User.db_try
    (User.db_bind (User.db_lift json) (fun body =>
     (* [!email || !password]: a field is absent, or is the empty string *)
     match email body, password body with
     | Some e, Some pw =>
         if negb (str_truthy e) || negb (str_truthy pw) then
           User.db_ret {| key := "error";
                          text := "Email and password are required";
                          status := 400 |}
         else
           User.db_bind (User.db_lift (connect env)) (fun _ =>
           User.db_bind (User.findOne e) (fun existingUser =>
           match existingUser with
           | Some _ =>
               User.db_ret {| key := "error";
                              text := "Email already exists";
                              status := 400 |}
           | None =>
               User.db_bind (User.create (oid env) (now env) (salt env) e pw)
                 (fun _ =>
               User.db_ret {| key := "message";
                              text := "User registered successfully";
                              status := 201 |})
           end))
     | _, _ =>
         User.db_ret {| key := "error";
                        text := "Email and password are required";
                        status := 400 |}
     end))
    (fun error =>
       User.db_ret {| key := "error";
                      text := "Failed to register user";
                      status := 500 |}).

End Handler.

End Register.

(** ** Credential verifier ([src/lib/auth.ts]) *)

Module Auth.

(** [credentials]: the submitted form fields. *)
Record Credentials := { email : string; password : string }.

(** The object literal returned at lines 51-54; it has these two
    properties and no other. *)
Module Identity.
Record t := { id : User.ObjectId; email : string }.
End Identity.

(** Both fields of [credentials] are present. *)
Definition present (credentials : option Credentials) : bool :=
  opt_truthy (email <$> credentials) && opt_truthy (password <$> credentials).

Definition missing_credentials : JsError := Error "Missing email or password".
Definition login_failed : JsError := Error "Failed to log in".

Section Authorize.
Context `{Bcrypt}.

(** [async authorize(credentials)]; [connect] is the outcome of
    [await connectToDatabase()] and [users] the collection read by
    [User.findOne]. *)
Definition authorize (connect : outcome Db.Connection) (users : User.Store)
    (credentials : option Credentials) : outcome Identity.t :=
  if negb (opt_truthy (email <$> credentials))
     || negb (opt_truthy (password <$> credentials))
  then Throw missing_credentials
  else
    match credentials with
    | None => Throw missing_credentials
    | Some credentials =>
        try_catch
          (_ ← connect;
           user ← fst (User.findOne (email credentials) users);
           match user with
           | None => Throw (Error "User not found")
           | Some user =>
               let isValid :=
                 bcrypt_compare (password credentials) (User.password user) in
               if negb isValid then Throw (Error "Invalid password")
               else Return {| Identity.id := User._id user;
                              Identity.email := User.email user |}
           end)
          (fun error => Throw login_failed)
    end.

End Authorize.

End Auth.

(** ** Session callbacks ([src/lib/auth.ts], [callbacks]) *)

Module Callbacks.

(** The token payload: the [id] claim written here (absent until a
    sign-in), and the claims the framework keeps beside it. *)
Record JWT := { id : option User.ObjectId; claims : gmap string string }.

(** [session.user] *)
Module SessionUser.
Record t := {
  id : option User.ObjectId;
  name : option string;
  email : option string;
  image : option string
}.
End SessionUser.

Record Session := { user : option SessionUser.t; expires : string }.

(** [async jwt({ token, user })]: [user] is what [authorize] returned,
    at sign-in, and [undefined] on every later call. *)
Definition jwt (token : JWT) (user : option Auth.Identity.t) : JWT :=
  match user with
  | Some user => {| id := Some (Auth.Identity.id user); claims := claims token |}
  | None => token
  end.

(** [async session({ session, token })] *)
Definition session (session : Session) (token : JWT) : Session :=
  match user session with
  | Some u =>
      {| user := Some {| SessionUser.id := id token;
                         SessionUser.name := SessionUser.name u;
                         SessionUser.email := SessionUser.email u;
                         SessionUser.image := SessionUser.image u |};
         expires := expires session |}
  | None => session
  end.

(** The token after a sign-in and [n] later refreshes. *)
Definition refreshed (n : nat) (token : JWT) : JWT :=
  Nat.iter n (fun t => jwt t None) token.

End Callbacks.

(** ** Upload widget ([src/app/components/FileUpload.tsx]) *)

Module FileUpload.

(** [fileType: "image" | "video"] *)
Inductive FileType := image | video.

(** The two properties of a [File] the component reads. *)
Record File := { type : string; size : N }.

(** [IKUploadResponse], as far as the component looks into it. *)
Record IKUploadResponse := { url : string }.

(** The two [useState] cells. *)
Record State := { uploading : bool; error : option string }.

Definition initial : State := {| uploading := false; error := None |}.

Definition setUploading (b : bool) (st : State) : State :=
  {| uploading := b; error := error st |}.
Definition setError (e : option string) (st : State) : State :=
  {| uploading := uploading st; error := e |}.

Definition validTypes : list string := ["image/jpeg"; "image/png"; "image/gif"].

(** [list.includes(s)] *)
Definition includes (l : list string) (s : string) : bool :=
  existsb (String.eqb s) l.

(** [validateFile(file)]: the verdict and the state it leaves. *)
Definition validateFile (fileType : FileType) (file : File) (st : State)
  : bool * State :=
  match fileType with
  | video =>
      if negb (startsWith (type file) "video/") then
        (false, setError (Some "Please upload a video file") st)
      else if (100 * 1024 * 1024 <? size file)%N then
        (false, setError (Some "Video must be less than 100MB") st)
      else (true, st)
  | image =>
      if negb (includes validTypes (type file)) then
        (false, setError (Some "Please upload an image file") st)
      else if (5 * 1024 * 1024 <? size file)%N then
        (false, setError (Some "Image must be less than 5MB") st)
      else (true, st)
  end.

(** Calls made to the parent's props. *)
Inductive callback :=
| onSuccess (res : IKUploadResponse)
| onProgress (progress : Z).

(** [ProgressEvent] *)
Record ProgressEvent := { lengthComputable : bool; loaded : N; total : N }.

(** What the upload control reports to the component. *)
Inductive event :=
| Validate (file : File)
| UploadStart
| UploadProgress (evt : ProgressEvent)
| UploadError (message : string)
| UploadSuccess (response : IKUploadResponse).

Section Handlers.
(** [Math.round((loaded / total) * 100)], computed in floating point by
    the runtime. *)
Variable round_percent : N -> N -> Z.

(** [onError(err)] *)
Definition onError (message : string) (st : State) : State :=
  setUploading false (setError (Some message) st).

(** [handleSuccess(response)] *)
Definition handleSuccess (response : IKUploadResponse) (st : State)
  : State * list callback :=
  (setError None (setUploading false st), [onSuccess response]).

(** [handleProgress(evt)] *)
Definition handleProgress (evt : ProgressEvent) (st : State)
  : State * list callback :=
  if lengthComputable evt
  then (st, [onProgress (round_percent (loaded evt) (total evt))])
  else (st, []).

(** [handleStartUpload(evt)] only logs. *)
Definition handleStartUpload (st : State) : State := st.

Definition handle (fileType : FileType) (e : event) (st : State)
  : State * list callback :=
  match e with
  | Validate file => (snd (validateFile fileType file st), [])
  | UploadStart => (handleStartUpload st, [])
  | UploadProgress evt => handleProgress evt st
  | UploadError message => (onError message st, [])
  | UploadSuccess response => handleSuccess response st
  end.

Fixpoint run (fileType : FileType) (es : list event) (st : State)
  : State * list callback :=
  match es with
  | [] => (st, [])
  | e :: es' =>
      let '(st1, out1) := handle fileType e st in
      let '(st2, out2) := run fileType es' st1 in
      (st2, out1 ++ out2)
  end.

End Handlers.

(** The events whose handlers write [uploading]. *)
Definition ends_upload (e : event) : bool :=
  match e with
  | UploadError _ | UploadSuccess _ => true
  | _ => false
  end.

(** The responses handed to the parent's [onSuccess], in order. *)
Definition reported (out : list callback) : list IKUploadResponse :=
  flat_map (fun cb => match cb with onSuccess r => [r] | onProgress _ => [] end)
           out.

(** The responses of the success events, in order. *)
Definition successes (es : list event) : list IKUploadResponse :=
  flat_map (fun e => match e with UploadSuccess r => [r] | _ => [] end) es.

End FileUpload.

(** ** Media upload authentication
       ([src/app/api/imagekit-auth/route.ts] and the [authenticator] of
       the providers component) *)

Module ImageKit.

Inductive JsVal := JStr (s : string) | JNum (n : Z).

(** What [imagekit.getAuthenticationParameters()] returns. *)
Record AuthenticationParameters := {
  token : string;
  expire : Z;
  signature : string
}.

(** The response built by [NextResponse.json(body, { status })]. *)
Record NextResponse := { body : gmap string JsVal; status : nat }.

Definition params_json (p : AuthenticationParameters) : gmap string JsVal :=
  <["token" := JStr (token p)]>
    (<["expire" := JNum (expire p)]>
       (<["signature" := JStr (signature p)]> ∅)).

(** [export async function GET()]; the argument is the outcome of the
    SDK call. *)
Definition GET (getAuthenticationParameters : outcome AuthenticationParameters)
  : NextResponse :=
  match getAuthenticationParameters with
  | Return authenticationParameters =>
      {| body := params_json authenticationParameters; status := 200 |}
  | Throw error =>
      {| body := <["error" := JStr "Imagekit Auth Failed"]> ∅; status := 500 |}
  end.

(** What [response.json()] can fulfil with: [null], an object, or a
    value whose properties all read [undefined] without throwing (a
    number, a string, a boolean, an array). *)
Inductive Json :=
| JNull
| JObject (o : gmap string JsVal)
| JOther.

(** A [fetch] response as the client reads it. *)
Module Response.
Record t := {
  status : nat;
  text : outcome string;                    (* [await response.text()] *)
  json : outcome Json                       (* [await response.json()] *)
}.
(** [response.ok] *)
Definition ok (r : t) : bool :=
  Nat.leb 200 (status r) && Nat.leb (status r) 299.
End Response.

(** What [authenticator] hands to the upload provider. *)
Module Credentials.
Record t := {
  signature : option JsVal;
  expire : option JsVal;
  token : option JsVal
}.
End Credentials.

Definition authentication_failed : JsError :=
  Error "Authentication request failed:".

(** [const authenticator = async () => ...]; the argument is the outcome
    of [await fetch("/api/imagekit-auth")]. *)
Definition authenticator (fetch : outcome Response.t) : outcome Credentials.t :=
  try_catch
    (response ← fetch;
     if negb (Response.ok response) then
       errorText ← Response.text response;
       Throw (Error (String.append "Request failed with status "
                       (String.append (pretty (Response.status response))
                          (String.append ": " errorText))))
     else
       data ← Response.json response;
       (* [const { signature, expire, token } = data] *)
       match data with
       | JNull =>
           Throw (Error "Cannot destructure property 'signature' of 'data' as it is null.")
       | JObject o =>
           Return {| Credentials.signature := o !! "signature";
                     Credentials.expire := o !! "expire";
                     Credentials.token := o !! "token" |}
       | JOther =>
           Return {| Credentials.signature := None;
                     Credentials.expire := None;
                     Credentials.token := None |}
       end)
    (fun error => Throw authentication_failed).

Section Wire.
(** [JSON.stringify] of a response body. *)
Variable stringify : gmap string JsVal -> string.

(** The route's response as the browser receives it. *)
Definition received (r : NextResponse) : Response.t :=
  {| Response.status := status r;
     Response.text := Return (stringify (body r));
     Response.json := Return (JObject (body r)) |}.

End Wire.

End ImageKit.

(** ** The Video model ([src/models/Video.ts]) *)

Module Video.

Definition Number := QArith_base.Q.

Module Dimensions.
Record t := { width : Number; height : Number }.
End Dimensions.

Definition VIDEO_DIMENSIONS : Dimensions.t :=
  {| Dimensions.width := QArith_base.inject_Z 1080;
     Dimensions.height := QArith_base.inject_Z 1920 |}.

(** The [transformation] path of a stored document. *)
Module Transformation.
Record t := { height : Number; width : Number; quality : option Number }.
End Transformation.

(** [interface IVideo], without the identifier and the timestamps. *)
Record IVideo := {
  title : string;
  description : string;
  videoUrl : string;
  thumbnailUrl : string;
  controls : bool;
  transformation : Transformation.t
}.

(** The object handed to the model; any path may be left out. *)
Module Input.
Record transformation_t := {
  height : option Number;
  width : option Number;
  quality : option Number
}.
Record t := {
  title : option string;
  description : option string;
  videoUrl : option string;
  thumbnailUrl : option string;
  controls : option bool;
  transformation : option transformation_t
}.
End Input.

(** [{ type: Number, min: 1, max: 100 }] *)
Definition quality_ok (q : Number) : bool :=
  QArith_base.Qle_bool (QArith_base.inject_Z 1) q
  && QArith_base.Qle_bool q (QArith_base.inject_Z 100).

(** The schema applied to an input: each path takes the given value or
    its [default]; then the [required] and [min]/[max] validators run. *)
Definition create (input : Input.t) : outcome IVideo :=
  let t := Input.transformation input in
  let quality := t ≫= Input.quality in
  let doc :=
    {| title := default "" (Input.title input);
       description := default "" (Input.description input);
       videoUrl := default "" (Input.videoUrl input);
       thumbnailUrl := default "" (Input.thumbnailUrl input);
       controls := default true (Input.controls input);
       transformation :=
         {| Transformation.height :=
              default (Dimensions.height VIDEO_DIMENSIONS) (t ≫= Input.height);
            Transformation.width :=
              default (Dimensions.width VIDEO_DIMENSIONS) (t ≫= Input.width);
            Transformation.quality := quality |} |} in
  if opt_truthy (Input.title input) && opt_truthy (Input.description input)
     && opt_truthy (Input.videoUrl input)
     && opt_truthy (Input.thumbnailUrl input)
     && from_option quality_ok true quality
  then Return doc
  else Throw (Error "Video validation failed").

End Video.

(** ** An instance of the hashing interface, to run the model on
       concrete inputs. *)

#[local] Instance sample_bcrypt : Bcrypt := {|
  bcrypt_hash := fun s _ _ => String.append "$2a$10$" s;
  bcrypt_compare := fun s h => String.eqb h (String.append "$2a$10$" s);
  compare_hash := fun s _ _ => String.eqb_refl (String.append "$2a$10$" s)
|}.


(** * Properties *)

(** ** Route middleware *)

Section MatcherFacts.
Import Middleware.

(** [t] is what is left of [s] after some prefix. *)
Inductive rest_of : string -> string -> Prop :=
| rest_of_refl s : rest_of s s
| rest_of_cons c s t : rest_of s t -> rest_of (String c s) t.

Lemma rest_of_trans s t u : rest_of s t -> rest_of t u -> rest_of s u.
Proof.
  induction 1 as [s | c s t _ IH]; intros Hu; [exact Hu|].
  apply rest_of_cons, IH, Hu.
Qed.

Lemma strip_rest l : forall s t, strip l s = Some t -> rest_of s t.
Proof.
  induction l as [|a l IH]; intros s t; cbn.
  - intros [= ->]. apply rest_of_refl.
  - destruct s as [|b s]; [discriminate|].
    destruct (Ascii.eqb a b); [|discriminate].
    intros Hs. apply rest_of_cons, IH, Hs.
Qed.

Lemma star_rest cls k : forall s,
  star cls s k = true -> exists t, rest_of s t /\ k t = true.
Proof.
  induction s as [|c s IH]; cbn; intros Hm.
  - exists "". split; [apply rest_of_refl | exact Hm].
  - apply orb_true_iff in Hm as [Hm | Hm].
    + apply andb_true_iff in Hm as [_ Hm].
      destruct (IH Hm) as (t & Ht & Hk).
      exists t. split; [apply rest_of_cons, Ht | exact Hk].
    + exists (String c s). split; [apply rest_of_refl | exact Hm].
Qed.

(** A successful match hands some rest of the input to its continuation. *)
Lemma rmatch_rest r : forall s k,
  rmatch r s k = true -> exists t, rest_of s t /\ k t = true.
Proof.
  induction r as [l | cls | cls | cls | r1 IH1 r2 IH2 | r1 IH1 r2 IH2
                 | r1 IH1 | r1 IH1]; intros s k; cbn; intros Hm.
  - destruct (strip l s) as [t|] eqn:Hs; [|discriminate].
    exists t. split; [eapply strip_rest, Hs | exact Hm].
  - destruct s as [|c s]; [discriminate|].
    apply andb_true_iff in Hm as [_ Hm].
    exists s. split; [apply rest_of_cons, rest_of_refl | exact Hm].
  - exact (star_rest _ _ _ Hm).
  - destruct s as [|c s]; [discriminate|].
    apply andb_true_iff in Hm as [_ Hm].
    destruct (star_rest _ _ _ Hm) as (t & Ht & Hk).
    exists t. split; [apply rest_of_cons, Ht | exact Hk].
  - destruct (IH1 _ _ Hm) as (t & Ht & Hm2).
    destruct (IH2 _ _ Hm2) as (u & Hu & Hk).
    exists u. split; [eapply rest_of_trans; eassumption | exact Hk].
  - apply orb_true_iff in Hm as [Hm | Hm]; [exact (IH1 _ _ Hm) | exact (IH2 _ _ Hm)].
  - apply orb_true_iff in Hm as [Hm | Hm]; [exact (IH1 _ _ Hm)|].
    exists s. split; [apply rest_of_refl | exact Hm].
  - apply andb_true_iff in Hm as [_ Hm].
    exists s. split; [apply rest_of_refl | exact Hm].
Qed.

Lemma str_mem_rest c s t : rest_of s t -> str_mem c t = true -> str_mem c s = true.
Proof.
  induction 1 as [s | a s t _ IH]; intros Ht; [exact Ht|].
  cbn. rewrite (IH Ht). apply orb_true_r.
Qed.

(** An expression with a literal blank in third place only matches
    inputs with a blank. *)
Lemma blank_in_third r1 r2 r3 s k :
  rmatch (Seq r1 (Seq r2 (Seq (Lit " ") r3))) s k = true ->
  str_mem " " s = true.
Proof.
  cbn [rmatch]. intros Hm.
  apply rmatch_rest in Hm as (t1 & H1 & Hm).
  apply rmatch_rest in Hm as (t2 & H2 & Hm).
  eapply str_mem_rest; [exact H1|].
  eapply str_mem_rest; [exact H2|].
  destruct t2 as [|c t2]; [discriminate Hm|].
  change (strip " " (String c t2))
    with (if Ascii.eqb " " c then strip "" t2 else None) in Hm.
  change (str_mem " " (String c t2))
    with (Ascii.eqb " " c || str_mem " " t2).
  destruct (Ascii.eqb " " c); [reflexivity | discriminate Hm].
Qed.

(** Every pathname the matcher selects has a blank in it. *)
Lemma selects_blank pathname :
  selects pathname = true -> str_mem " " pathname = true.
Proof. apply blank_in_third. Qed.

End MatcherFacts.

(** The matcher on sample pathnames: the declared roots are excluded,
    and a pathname is selected once it ends in a blank. *)
Example matcher_samples :
  Middleware.excluded "/api/videos" = true /\
  Middleware.excluded "/_next/static/chunk.js" = true /\
  Middleware.excluded "/favicon.ico" = true /\
  Middleware.selects "/api/videos " = false /\
  Middleware.selects "/dashboard " = true /\
  Middleware.selects "/_next/data/build/dashboard .json" = true /\
  Middleware.selects "/" = false.
Proof. repeat split; reflexivity. Qed.

(** The route guard on sample requests: a selected pathname is put to
    the callback, unless [withAuth] lets it through unasked. *)
Example guard_samples :
  Middleware.guard None "/dashboard " = Some false /\
  Middleware.guard (Some {| Middleware.token_id := "u1" |}) "/dashboard "
    = Some true /\
  Middleware.guard None "/login " = Some true /\
  Middleware.guard None "/_next/chunks/main.js " = None /\
  Middleware.guard None "/_next/data/build/dashboard .json" = None.
Proof. repeat split; reflexivity. Qed.

(** C4. [/dashboard] is outside the declared excluded set, yet the
    matcher does not select it: a request for it, even without a token,
    reaches the application without the predicate being evaluated. *)
Theorem matcher_misses_dashboard :
  Middleware.excluded "/dashboard" = false /\
  Middleware.selects "/dashboard" = false /\
  Middleware.authorized None "/dashboard" = false /\
  Middleware.guard None "/dashboard" = None.
Proof. repeat split; reflexivity. Qed.

(** C9. The authorization predicate is true on the four public sample
    paths whatever the token, false on [/dashboard] without a token and
    true on [/dashboard] with one. *)
Theorem authorized_sample_paths :
  (forall token, Middleware.authorized token "/api/auth/callback" = true) /\
  (forall token, Middleware.authorized token "/" = true) /\
  (forall token, Middleware.authorized token "/api/videos" = true) /\
  Middleware.authorized None "/dashboard" = false /\
  (forall t, Middleware.authorized (Some t) "/dashboard" = true).
Proof.
  repeat split; intros; reflexivity.
Qed.

(** ** Connection cache *)

Section CacheFacts.
Import Db.

Ltac settle_inv Hs :=
  unfold settle in Hs;
  match type of Hs with
  | context [promises ?s !! ?p] =>
      let E := fresh "Ep" in
      destruct (promises s !! p) as [[| |]|] eqn:E; try discriminate Hs;
      injection Hs as <-
  end.

Ltac resume_inv Hs :=
  unfold resume in Hs;
  match type of Hs with
  | context [promises ?s !! ?p] =>
      let E := fresh "Ep" in
      destruct (promises s !! p) as [[| |]|] eqn:E; try discriminate Hs;
      injection Hs as <-
  end.

Lemma begin_calls c s :
  exists st, calls (begin c s) = <[c := st]> (calls s).
Proof.
  unfold begin. destruct (conn (cached s)); [|destruct (promise (cached s))];
    cbn; eauto.
Qed.

Lemma step_other_call e s s' c st :
  step e s = Some s' -> calls s !! c = Some st ->
  calls s' !! c = Some st \/ (exists p, st = Awaiting p /\ e = Resume c).
Proof.
  intros Hs Hc. destruct e as [c' | p h | p | c']; cbn in Hs.
  - destruct (calls s !! c') eqn:E; [discriminate Hs|]. injection Hs as <-.
    left. destruct (begin_calls c' s) as [st' ->].
    rewrite lookup_insert_ne; [exact Hc | congruence].
  - settle_inv Hs. left. exact Hc.
  - settle_inv Hs. left. exact Hc.
  - destruct (decide (c' = c)) as [->|Hne].
    + rewrite Hc in Hs. destruct st as [p|r]; [|discriminate Hs]. eauto.
    + left. destruct (calls s !! c') as [[p|r]|]; try discriminate Hs.
      resume_inv Hs; cbn; rewrite lookup_insert_ne; auto.
Qed.

Lemma step_done e s s' c r :
  step e s = Some s' -> calls s !! c = Some (Done r) ->
  calls s' !! c = Some (Done r).
Proof.
  intros Hs Hc. destruct (step_other_call _ _ _ _ _ Hs Hc) as [H|(p & H & _)];
    [exact H | discriminate H].
Qed.

Lemma run_done tr : forall s s' c r,
  run tr s = Some s' -> calls s !! c = Some (Done r) ->
  calls s' !! c = Some (Done r).
Proof.
  induction tr as [|e tr IH]; intros s s' c r; cbn.
  - intros [= <-]. auto.
  - destruct (step e s) as [s1|] eqn:Hs; [|discriminate].
    intros Hr Hc. eapply IH; [exact Hr|]. eapply step_done; eassumption.
Qed.

Lemma none_settled_back tr s s' :
  run tr s = Some s' -> none_settled s' -> none_settled s.
Proof.
  intros Hr Hn c r Hc. apply (Hn c r). eapply run_done; eassumption.
Qed.

Lemma first_flight_init : first_flight init.
Proof.
  unfold first_flight, init; cbn. split; [reflexivity|]. split; [|auto].
  intros c st Hc. rewrite lookup_empty in Hc. discriminate Hc.
Qed.

Lemma first_flight_step e s s' :
  step e s = Some s' -> none_settled s' -> first_flight s -> first_flight s'.
Proof.
  intros Hs Hn (Hconn & Hcalls & Hp).
  destruct e as [c | p h | p | c]; cbn in Hs.
  - destruct (calls s !! c) eqn:E; [discriminate Hs|]. injection Hs as <-.
    unfold begin. rewrite Hconn.
    destruct (promise (cached s)) as [p|] eqn:Ep.
    + destruct Hp as [-> Hlen]. unfold first_flight; cbn. rewrite Ep.
      split; [exact Hconn|]. split; [|auto].
      intros c' st. rewrite lookup_insert. case_decide;
        [intros [= <-]; auto | intros Hc'; apply (Hcalls _ _ Hc')].
    + destruct Hp as [Hnil Hempty]. unfold first_flight; cbn.
      rewrite Hnil, Hempty. cbn. split; [reflexivity|]. split; [|auto].
      intros c' st. rewrite lookup_insert. case_decide;
        [intros [= <-]; auto | rewrite lookup_empty; discriminate].
  - settle_inv Hs. unfold first_flight; cbn.
    split; [exact Hconn|]. split; [exact Hcalls|].
    destruct (promise (cached s)); [|destruct Hp as [Hnil _];
      rewrite Hnil in Ep; discriminate Ep].
    rewrite length_insert. exact Hp.
  - settle_inv Hs. unfold first_flight; cbn.
    split; [exact Hconn|]. split; [exact Hcalls|].
    destruct (promise (cached s)); [|destruct Hp as [Hnil _];
      rewrite Hnil in Ep; discriminate Ep].
    rewrite length_insert. exact Hp.
  - exfalso. destruct (calls s !! c) as [[p|r]|]; try discriminate Hs.
    resume_inv Hs.
    + apply (Hn c (Return h)). cbn. apply lookup_insert_eq.
    + apply (Hn c (Throw connection_failed)). cbn. apply lookup_insert_eq.
Qed.

Lemma first_flight_run tr : forall s s',
  run tr s = Some s' -> none_settled s' -> first_flight s -> first_flight s'.
Proof.
  induction tr as [|e tr IH]; intros s s'; cbn.
  - intros [= <-]. auto.
  - destruct (step e s) as [s1|] eqn:Hs; [|discriminate].
    intros Hr Hn Hf. eapply IH; [exact Hr | exact Hn |].
    eapply first_flight_step; [exact Hs | | exact Hf].
    eapply none_settled_back; eassumption.
Qed.

Lemma follows_step e s s' p c :
  step e s = Some s' -> follows p c s -> follows p c s'.
Proof.
  intros Hs Hf.
  assert (Hprom : forall v, v <> Pending ->
            promises s !! p = Some v -> promises s' !! p = Some v).
  { intros v Hv Hl. destruct e as [c' | p' h' | p' | c']; cbn in Hs.
    - destruct (calls s !! c'); [discriminate Hs|]. injection Hs as <-.
      unfold begin.
      destruct (conn (cached s)); [|destruct (promise (cached s))]; cbn; auto.
      apply lookup_app_l_Some, Hl.
    - settle_inv Hs. cbn. rewrite list_lookup_insert_ne; [exact Hl|].
      intros ->. congruence.
    - settle_inv Hs. cbn. rewrite list_lookup_insert_ne; [exact Hl|].
      intros ->. congruence.
    - destruct (calls s !! c') as [[q|r]|]; try discriminate Hs.
      resume_inv Hs; exact Hl. }
  destruct Hf as [Hc | [(h & Hp & Hc) | (Hp & Hc)]].
  - destruct (step_other_call _ _ _ _ _ Hs Hc) as [H | (q & [= <-] & ->)];
      [left; exact H|].
    cbn in Hs. rewrite Hc in Hs. resume_inv Hs; cbn.
    + right; left. exists h. split; [exact Ep | apply lookup_insert_eq].
    + right; right. split; [exact Ep | apply lookup_insert_eq].
  - right; left. exists h. split; [apply Hprom; [discriminate | exact Hp]|].
    eapply step_done; eassumption.
  - right; right. split; [apply Hprom; [discriminate | exact Hp]|].
    eapply step_done; eassumption.
Qed.

Lemma follows_run tr p c : forall s s',
  run tr s = Some s' -> follows p c s -> follows p c s'.
Proof.
  induction tr as [|e tr IH]; intros s s'; cbn.
  - intros [= <-]. auto.
  - destruct (step e s) as [s1|] eqn:Hs; [|discriminate].
    intros Hr Hf. eapply IH; [exact Hr|]. eapply follows_step; eassumption.
Qed.

Lemma well_formed_init : well_formed init.
Proof.
  split; cbn; [discriminate|].
  intros c p Hc. rewrite lookup_empty in Hc. discriminate Hc.
Qed.

Lemma well_formed_step e s s' :
  step e s = Some s' -> well_formed s -> well_formed s'.
Proof.
  intros Hs [Hst Haw]. destruct e as [c | p h | p | c]; cbn in Hs.
  - destruct (calls s !! c) eqn:E; [discriminate Hs|]. injection Hs as <-.
    unfold begin. destruct (conn (cached s)) as [h|].
    + split; cbn; [exact Hst|]. intros c' p.
      rewrite lookup_insert. case_decide; [discriminate | apply Haw].
    + destruct (promise (cached s)) as [q|] eqn:Eq.
      * split; cbn; [rewrite Eq; exact Hst|]. intros c' p.
        rewrite lookup_insert. case_decide; [intros [= <-]; auto | apply Haw].
      * split; cbn; rewrite length_app; cbn.
        { intros p [= <-]. lia. }
        intros c' p. rewrite lookup_insert.
        case_decide; [intros [= <-]; lia | intros Hc; apply Haw in Hc; lia].
  - settle_inv Hs. split; cbn; rewrite length_insert; assumption.
  - settle_inv Hs. split; cbn; rewrite length_insert; assumption.
  - destruct (calls s !! c) as [[p|r]|]; try discriminate Hs.
    resume_inv Hs; (split; cbn; [first [exact Hst | discriminate]|]);
      intros c' q; rewrite lookup_insert;
      (case_decide; [discriminate | apply Haw]).
Qed.

Lemma well_formed_run tr : forall s s',
  run tr s = Some s' -> well_formed s -> well_formed s'.
Proof.
  induction tr as [|e tr IH]; intros s s'; cbn.
  - intros [= <-]. auto.
  - destruct (step e s) as [s1|] eqn:Hs; [|discriminate].
    intros Hr Hw. eapply IH; [exact Hr|]. eapply well_formed_step; eassumption.
Qed.

(** A suspended call runs to its end as soon as its attempt is settled. *)
Lemma resume_enabled s c p :
  well_formed s -> calls s !! c = Some (Awaiting p) ->
  promises s !! p <> Some Pending ->
  exists s' r, step (Resume c) s = Some s' /\ calls s' !! c = Some (Done r).
Proof.
  intros [_ Haw] Hc Hp. unfold step. rewrite Hc. unfold resume.
  destruct (promises s !! p) as [[|h|]|] eqn:Hv.
  - congruence.
  - do 2 eexists. split; [reflexivity|]. cbn. apply lookup_insert_eq.
  - do 2 eexists. split; [reflexivity|]. cbn. apply lookup_insert_eq.
  - apply lookup_ge_None in Hv. apply Haw in Hc. lia.
Qed.

Lemma follows_same p c c' s r r' :
  follows p c s -> follows p c' s ->
  calls s !! c = Some (Done r) -> calls s !! c' = Some (Done r') -> r = r'.
Proof.
  intros [H1 | [(h1 & P1 & H1) | (P1 & H1)]] [H2 | [(h2 & P2 & H2) | (P2 & H2)]];
    intros E1 E2; congruence.
Qed.

End CacheFacts.

(** C1, counterexample. A call that fails and a call made after it both
    begin before any call has succeeded, and each starts a connection
    attempt of its own. *)
Lemma retry_starts_second_attempt :
  exists s,
    Db.run [Db.Call 0; Db.Reject 0; Db.Resume 0; Db.Call 1] Db.init = Some s /\
    Db.none_succeeded s /\
    Db.attempts s = 2.
Proof.
  exists {| Db.cached := {| Db.conn := None; Db.promise := Some 1 |};
            Db.promises := [Db.Rejected; Db.Pending];
            Db.calls := <[1 := Db.Awaiting 1]>
                          (<[0 := Db.Done (Throw Db.connection_failed)]>
                             (<[0 := Db.Awaiting 0]> ∅)) |}.
  split; [reflexivity|]. split; [|reflexivity].
  intros c h. cbn [Db.calls].
  rewrite lookup_insert. case_decide; [discriminate|].
  rewrite lookup_insert. case_decide; [discriminate|].
  rewrite lookup_insert. case_decide; [discriminate|].
  rewrite lookup_empty. discriminate.
Qed.

(** C1 (amended). Calls that begin before any call has settled start at
    most one connection attempt between them, all of them are suspended
    on that one stored attempt, and whatever happens afterwards each of
    them is still suspended on it, or has returned the handle it was
    fulfilled with, or has thrown the connection-failure error after it
    was rejected; so any two of them that settled settled alike, and one
    still suspended settles as soon as the attempt is settled. *)
Theorem single_flight_until_settled (tr1 tr2 : list Db.event) (s1 s2 : Db.state) :
  Db.run tr1 Db.init = Some s1 ->
  Db.none_settled s1 ->
  Db.run tr2 s1 = Some s2 ->
  Db.attempts s1 <= 1 /\
  (forall c st, Db.calls s1 !! c = Some st ->
     st = Db.Awaiting 0 /\ Db.promise (Db.cached s1) = Some 0 /\
     Db.follows 0 c s2) /\
  (forall c c' r r',
     is_Some (Db.calls s1 !! c) -> is_Some (Db.calls s1 !! c') ->
     Db.calls s2 !! c = Some (Db.Done r) ->
     Db.calls s2 !! c' = Some (Db.Done r') -> r = r') /\
  (forall c, Db.calls s2 !! c = Some (Db.Awaiting 0) ->
     Db.promises s2 !! 0 <> Some Db.Pending ->
     exists s3 r, Db.step (Db.Resume c) s2 = Some s3 /\
                  Db.calls s3 !! c = Some (Db.Done r)).
Proof.
  intros H1 Hn H2.
  assert (Hw : Db.well_formed s2).
  { eapply well_formed_run; [exact H2|].
    eapply well_formed_run; [exact H1 | apply well_formed_init]. }
  pose proof (first_flight_run _ _ _ H1 Hn first_flight_init)
    as (Hconn & Hcalls & Hp).
  assert (Hfollow : forall c st, Db.calls s1 !! c = Some st -> Db.follows 0 c s2).
  { intros c st Hc. eapply follows_run; [exact H2|].
    left. destruct (Hcalls _ _ Hc) as [-> _]. exact Hc. }
  split; [|split; [|split]].
  - unfold Db.attempts. destruct (Db.promise (Db.cached s1)).
    + destruct Hp as [_ ->]. lia.
    + destruct Hp as [-> _]. cbn. lia.
  - intros c st Hc. destruct (Hcalls _ _ Hc) as [-> Hst]. eauto.
  - intros c c' r r' [st Hc] [st' Hc']. eapply follows_same; eauto.
  - intros c Hc Hset. eapply resume_enabled; eassumption.
Qed.

Lemma single_flight_until_settled_witness :
  let s1 := {| Db.cached := {| Db.conn := None; Db.promise := Some 0 |};
               Db.promises := [Db.Pending];
               Db.calls := <[1 := Db.Awaiting 0]> (<[0 := Db.Awaiting 0]> ∅) |} in
  let s2 := {| Db.cached := {| Db.conn := Some 7; Db.promise := Some 0 |};
               Db.promises := [Db.Fulfilled 7];
               Db.calls := <[1 := Db.Done (Return 7)]>
                             (<[0 := Db.Done (Return 7)]>
                                (<[1 := Db.Awaiting 0]> (<[0 := Db.Awaiting 0]> ∅))) |} in
  Db.attempts s1 <= 1 /\
  (forall c st, Db.calls s1 !! c = Some st ->
     st = Db.Awaiting 0 /\ Db.promise (Db.cached s1) = Some 0 /\
     Db.follows 0 c s2) /\
  (forall c c' r r',
     is_Some (Db.calls s1 !! c) -> is_Some (Db.calls s1 !! c') ->
     Db.calls s2 !! c = Some (Db.Done r) ->
     Db.calls s2 !! c' = Some (Db.Done r') -> r = r') /\
  (forall c, Db.calls s2 !! c = Some (Db.Awaiting 0) ->
     Db.promises s2 !! 0 <> Some Db.Pending ->
     exists s3 r, Db.step (Db.Resume c) s2 = Some s3 /\
                  Db.calls s3 !! c = Some (Db.Done r)).
Proof.
  intros s1 s2.
  apply (single_flight_until_settled
           [Db.Call 0; Db.Call 1]
           [Db.Resolve 0 7; Db.Resume 0; Db.Resume 1] s1 s2).
  - reflexivity.
  - intros c r. subst s1. cbn [Db.calls].
    rewrite lookup_insert. case_decide; [discriminate|].
    rewrite lookup_insert. case_decide; [discriminate|].
    rewrite lookup_empty. discriminate.
  - reflexivity.
Defined.

(** C5. When the attempt a call awaits is rejected, the call clears the
    stored attempt, leaves the cached handle as it was and throws the
    connection-failure error; the next call never awaits the failed
    attempt, and with no handle cached it starts a fresh one, stores it
    and awaits it. *)
Theorem failed_attempt_is_discarded (s : Db.state) (c : nat) (p : Db.PromiseId) :
  Db.calls s !! c = Some (Db.Awaiting p) ->
  Db.promises s !! p = Some Db.Rejected ->
  exists s',
    Db.step (Db.Resume c) s = Some s' /\
    Db.promise (Db.cached s') = None /\
    Db.conn (Db.cached s') = Db.conn (Db.cached s) /\
    Db.calls s' !! c = Some (Db.Done (Throw Db.connection_failed)) /\
    Db.attempts s' = Db.attempts s /\
    forall c', Db.calls s' !! c' = None ->
      exists s'',
        Db.step (Db.Call c') s' = Some s'' /\
        Db.calls s'' !! c' <> Some (Db.Awaiting p) /\
        (Db.conn (Db.cached s) = None ->
           Db.attempts s'' = S (Db.attempts s) /\
           Db.promises s'' !! Db.attempts s = Some Db.Pending /\
           Db.promise (Db.cached s'') = Some (Db.attempts s) /\
           Db.calls s'' !! c' = Some (Db.Awaiting (Db.attempts s))).
Proof.
  intros Hc Hp. eexists. split.
  { cbn. rewrite Hc. unfold Db.resume. rewrite Hp. reflexivity. }
  cbn. split; [reflexivity|]. split; [reflexivity|].
  split; [apply lookup_insert_eq|]. split; [reflexivity|].
  intros c' Hfresh. eexists. split.
  { cbn. rewrite Hfresh. reflexivity. }
  assert (Hlt : p < length (Db.promises s)) by (eapply lookup_lt_Some, Hp).
  unfold Db.begin, Db.attempts; cbn.
  destruct (Db.conn (Db.cached s)) as [h|]; cbn.
  - split; [|discriminate].
    rewrite lookup_insert_eq. discriminate.
  - split.
    + rewrite lookup_insert_eq. intros [= E]. lia.
    + intros _. rewrite length_app, lookup_app_r, Nat.sub_diag by lia. cbn.
      rewrite lookup_insert_eq. repeat split. lia.
Qed.

Lemma failed_attempt_is_discarded_witness :
  let s := {| Db.cached := {| Db.conn := None; Db.promise := Some 0 |};
              Db.promises := [Db.Rejected];
              Db.calls := <[0 := Db.Awaiting 0]> ∅ |} in
  Db.run [Db.Call 0; Db.Reject 0] Db.init = Some s /\
  exists s',
    Db.step (Db.Resume 0) s = Some s' /\
    Db.promise (Db.cached s') = None /\
    Db.conn (Db.cached s') = Db.conn (Db.cached s) /\
    Db.calls s' !! 0 = Some (Db.Done (Throw Db.connection_failed)) /\
    Db.attempts s' = Db.attempts s /\
    forall c', Db.calls s' !! c' = None ->
      exists s'',
        Db.step (Db.Call c') s' = Some s'' /\
        Db.calls s'' !! c' <> Some (Db.Awaiting 0) /\
        (Db.conn (Db.cached s) = None ->
           Db.attempts s'' = S (Db.attempts s) /\
           Db.promises s'' !! Db.attempts s = Some Db.Pending /\
           Db.promise (Db.cached s'') = Some (Db.attempts s) /\
           Db.calls s'' !! c' = Some (Db.Awaiting (Db.attempts s))).
Proof.
  intros s. split; [reflexivity|].
  apply (failed_attempt_is_discarded s 0 0); reflexivity.
Defined.

(** ** The User model and the registration endpoint *)

Section UserFacts.
Context `{Bcrypt}.
Import User.


Lemma pre_save_unmodified salt this :
  isModified this "password" = false -> pre_save salt this = this.
Proof. unfold pre_save. intros ->. reflexivity. Qed.


Lemma pre_save_frame salt this :
  email (fields (pre_save salt this)) = email (fields this) /\
  _id (fields (pre_save salt this)) = _id (fields this) /\
  isNew (pre_save salt this) = isNew this /\
  modifiedPaths (pre_save salt this) = modifiedPaths this.
Proof. unfold pre_save. destruct (isModified this "password"); auto. Qed.

Lemma set_password_modified this pw :
  pw <> password (fields this) ->
  isModified (set_password this pw) "password" = true /\
  password (fields (set_password this pw)) = pw.
Proof.
  intros Hne. unfold set_password.
  destruct (String.eqb pw (password (fields this))) eqn:E.
  - apply String.eqb_eq in E. contradiction.
  - split; reflexivity.
Qed.

Lemma set_password_same this :
  set_password this (password (fields this)) = this.
Proof. unfold set_password. rewrite String.eqb_refl. reflexivity. Qed.

(** What [save] does to the collection when it succeeds. *)
Lemma save_inv now salt this st st' :
  save now salt this st = (Return tt, st') ->
  let d := pre_save salt this in
  (isNew this = true /\
   find (fun u => String.eqb (email u) (email (fields this))) st = None /\
   st' = st ++ [ {| email := email (fields this);
                    password := password (fields d);
                    _id := _id (fields this);
                    createdAt := now; updatedAt := now |} ]) \/
  (isNew this = false /\ modifiedPaths this = [] /\ st' = st) \/
  (isNew this = false /\ modifiedPaths this <> [] /\
   st' = map (fun u => if Nat.eqb (_id u) (_id (fields this))
                       then update_record now d u else u) st).
Proof.
  unfold save, db_bind, db_lift. destruct (validate this); [|discriminate].
  destruct (pre_save_frame salt this) as (He & Hi & Hn & Hm).
  unfold persist. rewrite Hn, He, Hi, Hm.
  destruct (isNew this).
  - destruct (find _ st); [discriminate|]. intros [= <-]. left. auto.
  - destruct (modifiedPaths this) eqn:E; intros [= <-]; right; [left|right]; auto.
Qed.

(** A failed [save] writes nothing. *)
Lemma save_throw now salt this st e st' :
  save now salt this st = (Throw e, st') -> st' = st.
Proof.
  unfold save, db_bind, db_lift. destruct (validate this); [|intros [= _ <-]; reflexivity].
  unfold persist. destruct (isNew (pre_save salt this)).
  - destruct (find _ st); [intros [= _ <-]; reflexivity | discriminate].
  - destruct (modifiedPaths (pre_save salt this)); discriminate.
Qed.

Lemma find_email_none (st : Store) e u :
  find (fun u => String.eqb (email u) e) st = None -> In u st -> email u <> e.
Proof.
  intros Hf Hin He. eapply find_none in Hf; [|exact Hin].
  cbn in Hf. rewrite He, String.eqb_refl in Hf. discriminate Hf.
Qed.

Lemma find_email_unique (st : Store) u :
  unique_emails st -> In u st ->
  find (fun v => String.eqb (email v) (email u)) st = Some u.
Proof.
  unfold unique_emails. induction st as [|v st IH]; cbn; [intros _ []|].
  intros Hnd [-> | Hin].
  - rewrite String.eqb_refl. reflexivity.
  - apply NoDup_cons in Hnd as [Hv Hnd].
    destruct (String.eqb (email v) (email u)) eqn:E; [|auto].
    apply String.eqb_eq in E. exfalso. apply Hv. rewrite E.
    apply list_elem_of_In, in_map, Hin.
Qed.

End UserFacts.

Section RegisterFacts.
Context `{Bcrypt}.
Import Register.

(** The handler always answers. *)
Lemma POST_total env json st :
  exists resp st', POST env json st = (Return resp, st').
Proof.
  unfold POST, User.db_try.
  destruct (User.db_bind _ _ st) as [[resp|e] st']; cbn; eauto.
Qed.

(** The four ways a request can go. *)
Lemma POST_cases env json st resp st' :
  POST env json st = (Return resp, st') ->
  (resp = {| key := "error"; text := "Failed to register user";
             status := 500 |} /\ st' = st /\
   ((exists err, json = Throw err) \/ (exists err, connect env = Throw err))) \/
  (resp = {| key := "error"; text := "Email and password are required";
             status := 400 |} /\ st' = st /\
   exists body, json = Return body /\
     (opt_truthy (email body) = false \/ opt_truthy (password body) = false)) \/
  (resp = {| key := "error"; text := "Email already exists"; status := 400 |} /\
   st' = st /\
   exists e pw u, json = Return {| email := Some e; password := Some pw |} /\
     find (fun u => String.eqb (User.email u) e) st = Some u) \/
  (resp = {| key := "message"; text := "User registered successfully";
             status := 201 |} /\
   exists e pw h, json = Return {| email := Some e; password := Some pw |} /\
     str_truthy e = true /\ str_truthy pw = true /\
     connect env = Return h /\
     find (fun u => String.eqb (User.email u) e) st = None /\
     st' = st ++ [ {| User.email := e;
                      User.password := bcrypt_hash pw 10 (salt env);
                      User._id := oid env;
                      User.createdAt := now env;
                      User.updatedAt := now env |} ]).
Proof.
  unfold POST, User.db_try, User.db_bind, User.db_lift, User.db_ret.
  destruct json as [[em pw]|err]; cbn; [|intros [= <- <-]; eauto 6].
  destruct em as [e|]; [destruct pw as [pw|]|].
  2,3: intros [= <- <-]; right; left; repeat split;
       eexists; split; [reflexivity|]; cbn; auto.
  destruct (str_truthy e) eqn:Te; cbn;
    [|intros [= <- <-]; right; left; repeat split;
      eexists; split; [reflexivity|]; cbn; auto].
  destruct (str_truthy pw) eqn:Tp; cbn;
    [|intros [= <- <-]; right; left; repeat split;
      eexists; split; [reflexivity|]; cbn; auto].
  destruct (connect env) as [h|err] eqn:Ec; cbn; [|intros [= <- <-]; eauto 6].
  destruct (find _ st) as [u|] eqn:Ef.
  - intros [= <- <-]. right; right; left. repeat split. eauto.
  - unfold User.validate; cbn. rewrite Te, Tp, Ef; cbn.
    intros [= <- <-]. right; right; right. split; [reflexivity|].
    exists e, pw, h. repeat split; auto.
Qed.

End RegisterFacts.

(** C6. A save of a document whose password path is not modified runs
    the hook without hashing (the document comes out as it went in), and
    every stored record keeps the password it had. *)
Theorem unmodified_password_is_kept `{Bcrypt} (now : User.Date) (salt : string)
    (this : User.Document) (st st' : list User.IUser) (r : outcome unit) :
  User.isModified this "password" = false ->
  User.save now salt this st = (r, st') ->
  User.pre_save salt this = this /\
  forall i u, st !! i = Some u ->
    exists u', st' !! i = Some u' /\
               User._id u' = User._id u /\
               User.password u' = User.password u.
Proof.
  intros Hm Hs. split; [apply pre_save_unmodified, Hm|].
  intros i u Hi. destruct r as [[]|e].
  - apply save_inv in Hs. cbn in Hs. rewrite (pre_save_unmodified _ _ Hm) in Hs.
    destruct Hs as [(_ & _ & ->) | [(_ & _ & ->) | (_ & _ & ->)]].
    + exists u. split; [apply lookup_app_l_Some, Hi | auto].
    + exists u. auto.
    + change (map ?f st) with (f <$> st). rewrite list_lookup_fmap, Hi. cbn.
      eexists. split; [reflexivity|].
      destruct (Nat.eqb (User._id u) (User._id (User.fields this))); [|auto].
      unfold User.update_record; cbn. rewrite Hm. auto.
  - apply save_throw in Hs as ->. exists u. auto.
Qed.

Lemma unmodified_password_is_kept_witness :
  let stored := {| User.email := "a@x.io"; User.password := "$2a$10$secret";
                   User._id := 1; User.createdAt := 5; User.updatedAt := 5 |} in
  let this := {| User.fields :=
                   {| User.email := "b@x.io"; User.password := "$2a$10$secret";
                      User._id := 1; User.createdAt := 5; User.updatedAt := 5 |};
                 User.isNew := false;
                 User.modifiedPaths := ["email"] |} in
  let st' := [ {| User.email := "b@x.io"; User.password := "$2a$10$secret";
                  User._id := 1; User.createdAt := 5; User.updatedAt := 9 |} ] in
  User.save 9 "salt" this [stored] = (Return tt, st') /\
  User.pre_save "salt" this = this /\
  forall i u, [stored] !! i = Some u ->
    exists u', st' !! i = Some u' /\
               User._id u' = User._id u /\
               User.password u' = User.password u.
Proof.
  intros stored this st'. split; [reflexivity|].
  apply (unmodified_password_is_kept 9 "salt" this [stored] st' (Return tt));
    reflexivity.
Defined.



(** A stored password that is changed and saved is written as the hash
    of the new plaintext; one that is assigned its own value again is
    left alone. *)
Example changed_password_is_hashed :
  let stored := {| User.email := "a@x.io"; User.password := "$2a$10$old";
                   User._id := 1; User.createdAt := 5; User.updatedAt := 5 |} in
  let loaded := {| User.fields := stored; User.isNew := false;
                   User.modifiedPaths := [] |} in
  User.save 9 "salt" (User.set_password loaded "fresh") [stored]
    = (Return tt,
       [ {| User.email := "a@x.io"; User.password := "$2a$10$fresh";
            User._id := 1; User.createdAt := 5; User.updatedAt := 9 |} ]) /\
  User.save 9 "salt" (User.set_password loaded "$2a$10$old") [stored]
    = (Return tt, [stored]).
Proof. split; reflexivity. Qed.

(** C10. A registration request whose email is already stored is
    answered, when the database is reached, with status 400 and leaves
    the collection as it was; the answer is the conflict error once both
    fields are present.  A record is added, or 201 answered, only when
    the email was not stored yet, and then both happen. *)
Theorem registration_conflict `{Bcrypt} (env : Register.Env)
    (json : outcome Register.Body) (st st' : list User.IUser)
    (resp : Register.Response) :
  Register.POST env json st = (Return resp, st') ->
  (forall body e u h,
     json = Return body -> Register.email body = Some e ->
     find (fun v => String.eqb (User.email v) e) st = Some u ->
     Register.connect env = Return h ->
     Register.status resp = 400 /\ st' = st /\
     (str_truthy e = true -> opt_truthy (Register.password body) = true ->
      resp = {| Register.key := "error";
                Register.text := "Email already exists";
                Register.status := 400 |})) /\
  (st' <> st \/ Register.status resp = 201 ->
   exists e pw u,
     json = Return {| Register.email := Some e; Register.password := Some pw |} /\
     find (fun v => String.eqb (User.email v) e) st = None /\
     st' = st ++ [u] /\ User.email u = e /\
     Register.status resp = 201).
Proof.
  intros Hp. apply POST_cases in Hp
    as [(-> & -> & Hwhy) | [(-> & -> & body' & Hj & Hf)
       | [(-> & -> & e' & pw' & u' & Hj & Hfind)
         | (-> & e' & pw' & h' & Hj & Te & Tp & Hc & Hfind & ->)]]].
  - split.
    + intros body e u h -> _ _ Hc. exfalso.
      destruct Hwhy as [[err E] | [err E]]; congruence.
    + intros [Hne | Hst]; [contradiction | discriminate Hst].
  - split.
    + intros body e u h Hb He _ _. split; [reflexivity|]. split; [reflexivity|].
      intros Te Tp. exfalso.
      assert (body' = body) as -> by congruence.
      rewrite He in Hf. cbn in Hf. destruct Hf; congruence.
    + intros [Hne | Hst]; [contradiction | discriminate Hst].
  - split.
    + intros; auto.
    + intros [Hne | Hst]; [contradiction | discriminate Hst].
  - split.
    + intros body e u h Hb He Hu _. exfalso.
      assert (body = {| Register.email := Some e';
                        Register.password := Some pw' |}) as -> by congruence.
      cbn in He. injection He as ->. rewrite Hfind in Hu. discriminate Hu.
    + intros _. eexists e', pw', _. repeat split; eauto.
Qed.

Lemma registration_conflict_witness :
  let env := {| Register.connect := Return 0; Register.oid := 7;
                Register.now := 3; Register.salt := "salt" |} in
  let u := {| User.email := "a@x.io"; User.password := "$2a$10$secret";
              User._id := 1; User.createdAt := 2; User.updatedAt := 2 |} in
  let resp := {| Register.key := "error";
                 Register.text := "Email already exists";
                 Register.status := 400 |} in
  let body := {| Register.email := Some "a@x.io";
                 Register.password := Some "other" |} in
  Register.POST env (Return body) [u] = (Return resp, [u]) /\
  Register.status resp = 400 /\ [u] = [u] /\
  (str_truthy "a@x.io" = true -> opt_truthy (Register.password body) = true ->
   resp = resp).
Proof.
  intros env u resp body. split; [reflexivity|].
  exact (proj1 (@registration_conflict sample_bcrypt env (Return body) [u] [u]
                  resp eq_refl)
               body "a@x.io" u 0 eq_refl eq_refl eq_refl eq_refl).
Defined.

(** ** Credential verifier *)

Section AuthFacts.
Context `{Bcrypt}.
Import Auth.

Lemma authorize_missing connect users credentials :
  present credentials = false ->
  authorize connect users credentials = Throw missing_credentials.
Proof.
  unfold present, authorize. intros Hp.
  destruct (opt_truthy (email <$> credentials));
    destruct (opt_truthy (password <$> credentials));
    try discriminate Hp; reflexivity.
Qed.

(** With both fields present the body of the [try] decides. *)
Lemma authorize_present connect users e pw :
  str_truthy e = true -> str_truthy pw = true ->
  authorize connect users (Some {| email := e; password := pw |}) =
    match connect with
    | Throw _ => Throw login_failed
    | Return _ =>
        match find (fun u => String.eqb (User.email u) e) users with
        | None => Throw login_failed
        | Some user =>
            if bcrypt_compare pw (User.password user)
            then Return {| Identity.id := User._id user;
                           Identity.email := User.email user |}
            else Throw login_failed
        end
    end.
Proof.
  intros Te Tp. unfold authorize. cbn. rewrite Te, Tp. cbn.
  destruct connect as [h|err]; cbn; [|reflexivity].
  destruct (find _ users) as [user|]; cbn; [|reflexivity].
  destruct (bcrypt_compare pw (User.password user)); reflexivity.
Qed.

Lemma present_some e pw :
  present (Some {| email := e; password := pw |}) = true ->
  str_truthy e = true /\ str_truthy pw = true.
Proof. unfold present. cbn. apply andb_true_iff. Qed.

(** The error of a failed login is decided by the submitted fields. *)
Lemma authorize_error connect users credentials err :
  authorize connect users credentials = Throw err ->
  err = if present credentials then login_failed else missing_credentials.
Proof.
  intros Ha. destruct (present credentials) eqn:Hp.
  - destruct credentials as [[e pw]|]; [|discriminate Hp].
    apply present_some in Hp as [Te Tp].
    rewrite (authorize_present _ _ _ _ Te Tp) in Ha.
    destruct connect; [|congruence].
    destruct (find _ users) as [user|]; [|congruence].
    destruct (bcrypt_compare pw (User.password user)); congruence.
  - rewrite (authorize_missing _ _ _ Hp) in Ha. congruence.
Qed.

(** Two failed logins with the same fields fail alike, whatever the
    collections and the connections they ran against. *)
Lemma authorize_error_ignores_store connect1 connect2 users1 users2
    credentials err1 err2 :
  authorize connect1 users1 credentials = Throw err1 ->
  authorize connect2 users2 credentials = Throw err2 ->
  err1 = err2.
Proof.
  intros H1 H2. apply authorize_error in H1, H2. congruence.
Qed.

End AuthFacts.

(** C2. With the same collection, a login with a stored email and a
    password that does not verify and a login with an email that is not
    stored both throw, and they throw the same error. *)
Theorem authorize_non_enumerating `{Bcrypt}
    (connect1 connect2 : outcome Db.Connection) (users : list User.IUser)
    (e1 pw1 e2 pw2 : string) (u : User.IUser) :
  str_truthy e1 = true -> str_truthy pw1 = true ->
  str_truthy e2 = true -> str_truthy pw2 = true ->
  find (fun v => String.eqb (User.email v) e1) users = Some u ->
  bcrypt_compare pw1 (User.password u) = false ->
  find (fun v => String.eqb (User.email v) e2) users = None ->
  exists err,
    Auth.authorize connect1 users
      (Some {| Auth.email := e1; Auth.password := pw1 |}) = Throw err /\
    Auth.authorize connect2 users
      (Some {| Auth.email := e2; Auth.password := pw2 |}) = Throw err.
Proof.
  intros T1 P1 T2 P2 Hfound Hwrong Habsent. exists Auth.login_failed.
  rewrite !authorize_present by assumption.
  rewrite Hfound, Hwrong, Habsent.
  destruct connect1, connect2; auto.
Qed.

Lemma authorize_non_enumerating_witness :
  let u := {| User.email := "a@x.io"; User.password := "$2a$10$secret";
              User._id := 1; User.createdAt := 2; User.updatedAt := 2 |} in
  exists err,
    Auth.authorize (Return 0) [u]
      (Some {| Auth.email := "a@x.io"; Auth.password := "guess" |}) = Throw err /\
    Auth.authorize (Return 0) [u]
      (Some {| Auth.email := "b@x.io"; Auth.password := "secret" |}) = Throw err.
Proof.
  intros u.
  apply (authorize_non_enumerating (Return 0) (Return 0) [u]
           "a@x.io" "guess" "b@x.io" "secret" u); reflexivity.
Defined.

(** C3, counterexample. The missing-credentials branch throws an error
    of its own, not the login-failed one. *)
Lemma missing_credentials_is_distinct :
  Auth.authorize (Return 0) []
    (Some {| Auth.email := ""; Auth.password := "secret" |})
    = Throw Auth.missing_credentials /\
  Auth.authorize (Return 0) [] None = Throw Auth.missing_credentials /\
  Auth.missing_credentials <> Auth.login_failed.
Proof. repeat split; try reflexivity. discriminate. Qed.

(** C3 (amended). Every failure of a login whose two fields are present
    (no connection, no such user, password mismatch) is thrown as the one
    login-failed error; a login with a field missing is thrown as the
    missing-credentials error. *)
Theorem authorize_failures `{Bcrypt} (connect : outcome Db.Connection)
    (users : list User.IUser) (credentials : option Auth.Credentials)
    (err : JsError) :
  Auth.authorize connect users credentials = Throw err ->
  err = if Auth.present credentials then Auth.login_failed
        else Auth.missing_credentials.
Proof.
  apply authorize_error.
Qed.

Lemma authorize_failures_witness :
  Auth.authorize (Throw Db.connection_failed) []
    (Some {| Auth.email := "a@x.io"; Auth.password := "secret" |})
    = Throw Auth.login_failed /\
  Auth.login_failed =
    if Auth.present (Some {| Auth.email := "a@x.io"; Auth.password := "secret" |})
    then Auth.login_failed else Auth.missing_credentials.
Proof.
  split; [reflexivity|].
  apply (authorize_failures (Throw Db.connection_failed) []
           (Some {| Auth.email := "a@x.io"; Auth.password := "secret" |})).
  reflexivity.
Defined.

(** C8. With the database reached, a login with the email of a stored
    record and the plaintext its password is the hash of returns the
    identity made of that record's identifier and email, and of nothing
    else. *)
Theorem authorize_returns_identity `{Bcrypt} (h : Db.Connection)
    (users : list User.IUser) (u : User.IUser) (p salt : string) (rounds : nat) :
  User.unique_emails users -> In u users ->
  str_truthy (User.email u) = true -> str_truthy p = true ->
  User.password u = bcrypt_hash p rounds salt ->
  Auth.authorize (Return h) users
    (Some {| Auth.email := User.email u; Auth.password := p |})
  = Return {| Auth.Identity.id := User._id u;
              Auth.Identity.email := User.email u |}.
Proof.
  intros Hnd Hin Te Tp Hhash.
  rewrite (authorize_present _ _ _ _ Te Tp).
  rewrite (find_email_unique _ _ Hnd Hin), Hhash, compare_hash. reflexivity.
Qed.

Lemma authorize_returns_identity_witness :
  let u := {| User.email := "a@x.io"; User.password := "$2a$10$secret";
              User._id := 1; User.createdAt := 2; User.updatedAt := 2 |} in
  let v := {| User.email := "b@x.io"; User.password := "$2a$10$hidden";
              User._id := 2; User.createdAt := 4; User.updatedAt := 4 |} in
  Auth.authorize (Return 0) [v; u]
    (Some {| Auth.email := "a@x.io"; Auth.password := "secret" |})
  = Return {| Auth.Identity.id := 1; Auth.Identity.email := "a@x.io" |}.
Proof.
  intros u v.
  apply (authorize_returns_identity 0 [v; u] u "secret" "salt" 10);
    try reflexivity.
  - unfold User.unique_emails. cbn.
    apply NoDup_cons. split; [|apply NoDup_singleton].
    intros Hin. apply list_elem_of_singleton in Hin. discriminate Hin.
  - cbn. auto.
Defined.

(** ** Further properties of the connection cache *)

Section CacheReuse.
Import Db.

Lemma step_keeps_handle e s s' h :
  step e s = Some s' -> conn (cached s) = Some h ->
  is_Some (conn (cached s')) /\
  attempts s' = attempts s /\
  (forall c st, calls s !! c = None -> calls s' !! c = Some st ->
     exists h', st = Done (Return h')).
Proof.
  intros Hs Hh. destruct e as [c | p v | p | c]; cbn in Hs.
  - destruct (calls s !! c) eqn:E; [discriminate Hs|]. injection Hs as <-.
    unfold begin. rewrite Hh. cbn. rewrite Hh. split; [eauto|].
    split; [reflexivity|]. intros c' st Hn. rewrite lookup_insert.
    case_decide; [intros [= <-]; eauto | congruence].
  - unfold settle in Hs.
    destruct (promises s !! p) as [[| |]|]; try discriminate Hs.
    injection Hs as <-. cbn. rewrite Hh. split; [eauto|].
    split; [unfold attempts; cbn; apply length_insert | congruence].
  - unfold settle in Hs.
    destruct (promises s !! p) as [[| |]|]; try discriminate Hs.
    injection Hs as <-. cbn. rewrite Hh. split; [eauto|].
    split; [unfold attempts; cbn; apply length_insert | congruence].
  - destruct (calls s !! c) as [[p|r]|] eqn:E; try discriminate Hs.
    unfold resume in Hs.
    destruct (promises s !! p) as [[|h'|]|]; try discriminate Hs;
      injection Hs as <-; cbn; rewrite ?Hh; (split; [eauto|]);
      (split; [reflexivity|]); intros c' st Hn; rewrite lookup_insert;
      (case_decide; [congruence | congruence]).
Qed.

End CacheReuse.

(** X1. Once a handle is cached it is never cleared: whatever happens
    next, a handle stays cached, no further connection attempt is started,
    and every call begun from then on has returned a handle at once (it
    neither waits nor throws). *)
Theorem handle_never_cleared (tr : list Db.event) (s s' : Db.state)
    (h : Db.Connection) :
  Db.conn (Db.cached s) = Some h ->
  Db.run tr s = Some s' ->
  is_Some (Db.conn (Db.cached s')) /\
  Db.attempts s' = Db.attempts s /\
  (forall c st, Db.calls s !! c = None -> Db.calls s' !! c = Some st ->
     exists h', st = Db.Done (Return h')).
Proof.
  revert s h. induction tr as [|e tr IH]; intros s h Hh; cbn.
  - intros [= <-]. split; [eauto|]. split; [reflexivity|]. congruence.
  - destruct (Db.step e s) as [s1|] eqn:Hs; [|discriminate].
    intros Hr.
    destruct (step_keeps_handle _ _ _ _ Hs Hh) as ([h1 Hh1] & Ha1 & Hc1).
    destruct (IH _ _ Hh1 Hr) as (Hh' & Ha' & Hc').
    split; [exact Hh'|]. split; [congruence|].
    intros c st Hn Hc. destruct (Db.calls s1 !! c) as [st1|] eqn:E1.
    + destruct (Hc1 _ _ Hn E1) as [h' ->].
      rewrite (run_done _ _ _ _ _ Hr E1) in Hc. injection Hc as <-. eauto.
    + eapply Hc'; eassumption.
Qed.

Lemma handle_never_cleared_witness :
  let s := {| Db.cached := {| Db.conn := Some 7; Db.promise := Some 0 |};
              Db.promises := [Db.Fulfilled 7];
              Db.calls := <[0 := Db.Done (Return 7)]>
                            (<[0 := Db.Awaiting 0]> ∅) |} in
  let s' := {| Db.cached := {| Db.conn := Some 7; Db.promise := Some 0 |};
               Db.promises := [Db.Fulfilled 7];
               Db.calls := <[2 := Db.Done (Return 7)]>
                             (<[1 := Db.Done (Return 7)]> (Db.calls s)) |} in
  Db.run [Db.Call 0; Db.Resolve 0 7; Db.Resume 0] Db.init = Some s /\
  Db.run [Db.Call 1; Db.Call 2] s = Some s' /\
  is_Some (Db.conn (Db.cached s')) /\
  Db.attempts s' = Db.attempts s /\
  (forall c st, Db.calls s !! c = None -> Db.calls s' !! c = Some st ->
     exists h', st = Db.Done (Return h')).
Proof.
  intros s s'. split; [reflexivity|]. split; [reflexivity|].
  apply (handle_never_cleared [Db.Call 1; Db.Call 2] s s' 7); reflexivity.
Defined.

(** X2. With a handle cached and no call suspended, every later call
    returns that very handle, and it stays the cached one. *)
Theorem idle_cache_reuses_handle (tr : list Db.event) (s s' : Db.state)
    (h : Db.Connection) :
  Db.conn (Db.cached s) = Some h ->
  (forall c p, Db.calls s !! c <> Some (Db.Awaiting p)) ->
  Db.run tr s = Some s' ->
  Db.conn (Db.cached s') = Some h /\
  (forall c st, Db.calls s !! c = None -> Db.calls s' !! c = Some st ->
     st = Db.Done (Return h)).
Proof.
  revert s. induction tr as [|e tr IH]; intros s Hh Hidle; cbn.
  - intros [= <-]. split; [exact Hh | congruence].
  - destruct (Db.step e s) as [s1|] eqn:Hs; [|discriminate].
    intros Hr.
    assert (H1 : Db.conn (Db.cached s1) = Some h /\
                 (forall c p, Db.calls s1 !! c <> Some (Db.Awaiting p)) /\
                 (forall c st, Db.calls s !! c = None ->
                    Db.calls s1 !! c = Some st -> st = Db.Done (Return h))).
    { destruct e as [c | p v | p | c]; cbn in Hs.
      - destruct (Db.calls s !! c) eqn:E; [discriminate Hs|].
        injection Hs as <-. unfold Db.begin. rewrite Hh. cbn.
        split; [exact Hh|]. split.
        + intros c' p. rewrite lookup_insert.
          case_decide; [discriminate | apply Hidle].
        + intros c' st Hn. rewrite lookup_insert.
          case_decide; [intros [= <-]; reflexivity | congruence].
      - unfold Db.settle in Hs.
        destruct (Db.promises s !! p) as [[| |]|]; try discriminate Hs.
        injection Hs as <-. cbn. split; [exact Hh|]. split; [exact Hidle|].
        congruence.
      - unfold Db.settle in Hs.
        destruct (Db.promises s !! p) as [[| |]|]; try discriminate Hs.
        injection Hs as <-. cbn. split; [exact Hh|]. split; [exact Hidle|].
        congruence.
      - destruct (Db.calls s !! c) as [[p|r]|] eqn:E; try discriminate Hs.
        exfalso. exact (Hidle _ _ E). }
    destruct H1 as (Hh1 & Hidle1 & Hc1).
    destruct (IH _ Hh1 Hidle1 Hr) as (Hh' & Hc').
    split; [exact Hh'|].
    intros c st Hn Hc. destruct (Db.calls s1 !! c) as [st1|] eqn:E1.
    + rewrite (Hc1 _ _ Hn E1) in E1.
      rewrite (run_done _ _ _ _ _ Hr E1) in Hc. congruence.
    + eapply Hc'; eassumption.
Qed.

Lemma idle_cache_reuses_handle_witness :
  let s := {| Db.cached := {| Db.conn := Some 7; Db.promise := Some 0 |};
              Db.promises := [Db.Fulfilled 7];
              Db.calls := <[0 := Db.Done (Return 7)]>
                            (<[0 := Db.Awaiting 0]> ∅) |} in
  let s' := {| Db.cached := {| Db.conn := Some 7; Db.promise := Some 0 |};
               Db.promises := [Db.Fulfilled 7];
               Db.calls := <[2 := Db.Done (Return 7)]>
                             (<[1 := Db.Done (Return 7)]> (Db.calls s)) |} in
  Db.run [Db.Call 1; Db.Call 2] s = Some s' /\
  Db.conn (Db.cached s') = Some 7 /\
  (forall c st, Db.calls s !! c = None -> Db.calls s' !! c = Some st ->
     st = Db.Done (Return 7)).
Proof.
  intros s s'. split; [reflexivity|].
  apply (idle_cache_reuses_handle [Db.Call 1; Db.Call 2] s s' 7);
    [reflexivity | | reflexivity].
  intros c p. subst s. cbn [Db.calls].
  rewrite lookup_insert. case_decide; [discriminate|].
  rewrite lookup_insert. case_decide; [congruence|].
  rewrite lookup_empty. discriminate.
Defined.

(** X3. A call that waited on a failed attempt clears whatever attempt is
    stored when it resumes, also a newer one that is still pending: the
    next call then starts another attempt, and two attempts are pending
    at once. *)
Theorem late_waiter_discards_newer_attempt (s : Db.state) (c c' : nat)
    (p q : Db.PromiseId) :
  Db.conn (Db.cached s) = None ->
  Db.promise (Db.cached s) = Some q ->
  Db.promises s !! q = Some Db.Pending ->
  Db.calls s !! c = Some (Db.Awaiting p) ->
  Db.promises s !! p = Some Db.Rejected ->
  Db.calls s !! c' = None ->
  exists s',
    Db.run [Db.Resume c; Db.Call c'] s = Some s' /\
    Db.attempts s' = S (Db.attempts s) /\
    q <> Db.attempts s /\
    Db.promises s' !! q = Some Db.Pending /\
    Db.promises s' !! Db.attempts s = Some Db.Pending /\
    Db.calls s' !! c' = Some (Db.Awaiting (Db.attempts s)).
Proof.
  intros Hconn Hq Hpend Hc Hp Hfresh.
  assert (Hlt : q < length (Db.promises s)) by (eapply lookup_lt_Some, Hpend).
  assert (Hne : c <> c') by congruence.
  eexists. split.
  { cbn. rewrite Hc. unfold Db.resume. rewrite Hp. cbn.
    rewrite lookup_insert_ne by exact Hne. rewrite Hfresh. reflexivity. }
  unfold Db.begin, Db.attempts. cbn. rewrite Hconn. cbn.
  rewrite length_app. cbn.
  split; [lia|]. split; [lia|].
  split; [apply lookup_app_l_Some, Hpend|].
  split; [rewrite lookup_app_r, Nat.sub_diag by lia; reflexivity|].
  apply lookup_insert_eq.
Qed.

Lemma late_waiter_discards_newer_attempt_witness :
  let s := {| Db.cached := {| Db.conn := None; Db.promise := Some 1 |};
              Db.promises := [Db.Rejected; Db.Pending];
              Db.calls := <[2 := Db.Awaiting 1]>
                            (<[0 := Db.Done (Throw Db.connection_failed)]>
                               (<[1 := Db.Awaiting 0]>
                                  (<[0 := Db.Awaiting 0]> ∅))) |} in
  Db.run [Db.Call 0; Db.Reject 0; Db.Call 1; Db.Resume 0; Db.Call 2] Db.init
    = Some s /\
  exists s',
    Db.run [Db.Resume 1; Db.Call 3] s = Some s' /\
    Db.attempts s' = S (Db.attempts s) /\
    1 <> Db.attempts s /\
    Db.promises s' !! 1 = Some Db.Pending /\
    Db.promises s' !! Db.attempts s = Some Db.Pending /\
    Db.calls s' !! 3 = Some (Db.Awaiting (Db.attempts s)).
Proof.
  intros s. split; [reflexivity|].
  apply (late_waiter_discards_newer_attempt s 1 3 0 1); reflexivity.
Defined.

(** ** Further properties of the credential verifier and of registration *)

Section LoginFacts.
Context `{Bcrypt}.

Lemma find_app_new (st : list User.IUser) (u : User.IUser) e :
  find (fun v => String.eqb (User.email v) e) st = None ->
  User.email u = e ->
  find (fun v => String.eqb (User.email v) e) (st ++ [u]) = Some u.
Proof.
  intros Hn He. induction st as [|v st IH]; cbn in *.
  - rewrite He, String.eqb_refl. reflexivity.
  - destruct (String.eqb (User.email v) e); [discriminate Hn | auto].
Qed.

Lemma unique_emails_snoc (st : list User.IUser) (u : User.IUser) :
  User.unique_emails st ->
  find (fun v => String.eqb (User.email v) (User.email u)) st = None ->
  User.unique_emails (st ++ [u]).
Proof.
  unfold User.unique_emails. intros Hnd Hf.
  change (map User.email (st ++ [u])) with (User.email <$> (st ++ [u])).
  rewrite fmap_app. apply NoDup_app. split; [exact Hnd|]. split.
  - intros e He Hin. apply list_elem_of_singleton in Hin. subst e.
    apply list_elem_of_fmap in He as (v & Hv & Hin).
    apply list_elem_of_In in Hin.
    apply (find_email_none _ _ _ Hf Hin). congruence.
  - apply NoDup_singleton.
Qed.

End LoginFacts.

(** X4. A login succeeds only if the database was reached, both fields
    were present, a stored record has the submitted email and the
    submitted password verifies against its hash; the identity returned
    is that record's identifier and email. *)
Theorem authorize_sound `{Bcrypt} (connect : outcome Db.Connection)
    (users : list User.IUser) (credentials : option Auth.Credentials)
    (ident : Auth.Identity.t) :
  Auth.authorize connect users credentials = Return ident ->
  exists h cr u,
    connect = Return h /\ credentials = Some cr /\
    str_truthy (Auth.email cr) = true /\ str_truthy (Auth.password cr) = true /\
    In u users /\ User.email u = Auth.email cr /\
    bcrypt_compare (Auth.password cr) (User.password u) = true /\
    ident = {| Auth.Identity.id := User._id u;
               Auth.Identity.email := User.email u |}.
Proof.
  intros Ha. destruct (Auth.present credentials) eqn:Hp.
  - destruct credentials as [[e pw]|]; [|discriminate Hp].
    apply present_some in Hp as [Te Tp].
    rewrite (authorize_present _ _ _ _ Te Tp) in Ha.
    destruct connect as [h|err]; [|discriminate Ha].
    destruct (find _ users) as [u|] eqn:Hf; [|discriminate Ha].
    destruct (bcrypt_compare pw (User.password u)) eqn:Hc; [|discriminate Ha].
    injection Ha as <-. apply find_some in Hf as [Hin He].
    apply String.eqb_eq in He.
    exists h, {| Auth.email := e; Auth.password := pw |}, u. auto 10.
  - rewrite (authorize_missing _ _ _ Hp) in Ha. discriminate Ha.
Qed.

Lemma authorize_sound_witness :
  let u := {| User.email := "a@x.io"; User.password := "$2a$10$secret";
              User._id := 1; User.createdAt := 2; User.updatedAt := 2 |} in
  let cr0 := {| Auth.email := "a@x.io"; Auth.password := "secret" |} in
  exists h cr v,
    Return 0 = Return h /\ Some cr0 = Some cr /\
    str_truthy (Auth.email cr) = true /\ str_truthy (Auth.password cr) = true /\
    In v [u] /\ User.email v = Auth.email cr /\
    bcrypt_compare (Auth.password cr) (User.password v) = true /\
    {| Auth.Identity.id := 1; Auth.Identity.email := "a@x.io" |}
      = {| Auth.Identity.id := User._id v;
           Auth.Identity.email := User.email v |}.
Proof.
  intros u cr0.
  apply (authorize_sound (Return 0) [u] (Some cr0)
           {| Auth.Identity.id := 1; Auth.Identity.email := "a@x.io" |}).
  reflexivity.
Defined.

(** X5. The error of a failed login does not depend on the collection or
    on the connection: two failed logins with the same credentials throw
    the same error. *)
Theorem failed_login_reveals_nothing `{Bcrypt}
    (connect1 connect2 : outcome Db.Connection)
    (users1 users2 : list User.IUser)
    (credentials : option Auth.Credentials) (err1 err2 : JsError) :
  Auth.authorize connect1 users1 credentials = Throw err1 ->
  Auth.authorize connect2 users2 credentials = Throw err2 ->
  err1 = err2.
Proof.
  intros H1 H2. apply authorize_error in H1, H2. congruence.
Qed.

Lemma failed_login_reveals_nothing_witness :
  let u := {| User.email := "a@x.io"; User.password := "$2a$10$secret";
              User._id := 1; User.createdAt := 2; User.updatedAt := 2 |} in
  let cr := Some {| Auth.email := "a@x.io"; Auth.password := "guess" |} in
  Auth.authorize (Return 0) [u] cr = Throw Auth.login_failed /\
  Auth.authorize (Throw Db.connection_failed) [] cr = Throw Auth.login_failed /\
  Auth.login_failed = Auth.login_failed.
Proof.
  intros u cr. split; [reflexivity|]. split; [reflexivity|].
  apply (failed_login_reveals_nothing (Return 0) (Throw Db.connection_failed)
           [u] [] cr); reflexivity.
Defined.

(** X6. After a sign-in the token carries the identifier [authorize]
    returned, through any number of later refreshes, with its other
    claims untouched; a session with a user then shows that identifier
    and keeps its other fields, and a session without a user is returned
    as it is. *)
Theorem session_carries_identity (token : Callbacks.JWT)
    (ident : Auth.Identity.t) (n : nat) (s : Callbacks.Session) :
  let token' := Callbacks.refreshed n (Callbacks.jwt token (Some ident)) in
  Callbacks.id token' = Some (Auth.Identity.id ident) /\
  Callbacks.claims token' = Callbacks.claims token /\
  Callbacks.expires (Callbacks.session s token') = Callbacks.expires s /\
  Callbacks.user (Callbacks.session s token') =
    (fun u => {| Callbacks.SessionUser.id := Some (Auth.Identity.id ident);
                 Callbacks.SessionUser.name := Callbacks.SessionUser.name u;
                 Callbacks.SessionUser.email := Callbacks.SessionUser.email u;
                 Callbacks.SessionUser.image := Callbacks.SessionUser.image u |})
    <$> Callbacks.user s.
Proof.
  intros token'.
  assert (Hfix : token' = Callbacks.jwt token (Some ident)).
  { subst token'. unfold Callbacks.refreshed.
    induction n as [|n IH]; cbn; [reflexivity | exact IH]. }
  rewrite Hfix. cbn. split; [reflexivity|]. split; [reflexivity|].
  unfold Callbacks.session.
  destruct (Callbacks.user s) eqn:E; cbn; rewrite ?E; split; reflexivity.
Qed.

(** X7. Registration followed by login: after a request answered 201, a
    login with the same email and password against the new collection,
    with the database reached, returns the identifier drawn for the new
    record and its email. *)
Theorem register_then_login `{Bcrypt} (env : Register.Env) (e pw : string)
    (st st' : list User.IUser) (resp : Register.Response) (h : Db.Connection) :
  Register.POST env
    (Return {| Register.email := Some e; Register.password := Some pw |}) st
    = (Return resp, st') ->
  Register.status resp = 201 ->
  Auth.authorize (Return h) st'
    (Some {| Auth.email := e; Auth.password := pw |})
  = Return {| Auth.Identity.id := Register.oid env; Auth.Identity.email := e |}.
Proof.
  intros Hp Hst.
  apply POST_cases in Hp
    as [(-> & _) | [(-> & _) | [(-> & _)
       | (_ & e' & pw' & h' & Hj & Te & Tp & _ & Hf & ->)]]];
    try discriminate Hst.
  injection Hj as <- <-.
  rewrite (authorize_present _ _ _ _ Te Tp).
  rewrite find_app_new by (exact Hf || reflexivity). cbn.
  rewrite compare_hash. reflexivity.
Qed.

Lemma register_then_login_witness :
  let env := {| Register.connect := Return 0; Register.oid := 7;
                Register.now := 3; Register.salt := "salt" |} in
  Auth.authorize (Return 0)
    [ {| User.email := "a@x.io"; User.password := "$2a$10$secret";
         User._id := 7; User.createdAt := 3; User.updatedAt := 3 |} ]
    (Some {| Auth.email := "a@x.io"; Auth.password := "secret" |})
  = Return {| Auth.Identity.id := 7; Auth.Identity.email := "a@x.io" |}.
Proof.
  intros env.
  apply (register_then_login env "a@x.io" "secret" []
           [ {| User.email := "a@x.io"; User.password := "$2a$10$secret";
                User._id := 7; User.createdAt := 3; User.updatedAt := 3 |} ]
           {| Register.key := "message";
              Register.text := "User registered successfully";
              Register.status := 201 |} 0); reflexivity.
Defined.

(** X8. Registration keeps stored emails unique and only ever appends:
    after any request the collection is the old one, or the old one with
    one record added at its end, and if no two records shared an email
    before, none do after. *)
Theorem POST_keeps_emails_unique `{Bcrypt} (env : Register.Env)
    (json : outcome Register.Body) (st st' : list User.IUser)
    (resp : Register.Response) :
  User.unique_emails st ->
  Register.POST env json st = (Return resp, st') ->
  User.unique_emails st' /\ (st' = st \/ exists u, st' = st ++ [u]).
Proof.
  intros Hu Hp.
  apply POST_cases in Hp
    as [(_ & -> & _) | [(_ & -> & _) | [(_ & -> & _)
       | (_ & e & pw & h & _ & _ & _ & _ & Hf & ->)]]]; auto.
  split; [|eauto]. apply unique_emails_snoc; [exact Hu | exact Hf].
Qed.

Lemma POST_keeps_emails_unique_witness :
  let env := {| Register.connect := Return 0; Register.oid := 7;
                Register.now := 3; Register.salt := "salt" |} in
  let u := {| User.email := "a@x.io"; User.password := "$2a$10$secret";
              User._id := 7; User.createdAt := 3; User.updatedAt := 3 |} in
  User.unique_emails [u] /\ ([u] = [] \/ exists v, [u] = [] ++ [v]).
Proof.
  intros env u.
  apply (POST_keeps_emails_unique env
           (Return {| Register.email := Some "a@x.io";
                      Register.password := Some "secret" |}) [] [u]
           {| Register.key := "message";
              Register.text := "User registered successfully";
              Register.status := 201 |}).
  - apply NoDup_nil_2.
  - reflexivity.
Defined.

(** X9. Registering the same email again is refused: once a request was
    answered 201, a second request with that email and any non-empty
    password, with the database reached, is answered with the conflict
    error and leaves the collection as the first request left it. *)
Theorem second_registration_refused `{Bcrypt} (env1 env2 : Register.Env)
    (e pw1 pw2 : string) (st st1 : list User.IUser)
    (resp1 : Register.Response) (h : Db.Connection) :
  Register.POST env1
    (Return {| Register.email := Some e; Register.password := Some pw1 |}) st
    = (Return resp1, st1) ->
  Register.status resp1 = 201 ->
  Register.connect env2 = Return h ->
  str_truthy pw2 = true ->
  Register.POST env2
    (Return {| Register.email := Some e; Register.password := Some pw2 |}) st1
  = (Return {| Register.key := "error";
               Register.text := "Email already exists";
               Register.status := 400 |}, st1).
Proof.
  intros Hp Hst Hc Tp2.
  apply POST_cases in Hp
    as [(-> & _) | [(-> & _) | [(-> & _)
       | (_ & e' & pw' & h' & Hj & Te & Tp & _ & Hf & ->)]]];
    try discriminate Hst.
  injection Hj as <- <-.
  unfold Register.POST, User.db_try, User.db_bind, User.db_lift, User.db_ret,
    User.findOne.
  cbn. rewrite Te, Tp2, Hc. cbn.
  rewrite find_app_new by (exact Hf || reflexivity). reflexivity.
Qed.

Lemma second_registration_refused_witness :
  let env := {| Register.connect := Return 0; Register.oid := 7;
                Register.now := 3; Register.salt := "salt" |} in
  let u := {| User.email := "a@x.io"; User.password := "$2a$10$secret";
              User._id := 7; User.createdAt := 3; User.updatedAt := 3 |} in
  Register.POST env
    (Return {| Register.email := Some "a@x.io";
               Register.password := Some "other" |}) [u]
  = (Return {| Register.key := "error";
               Register.text := "Email already exists";
               Register.status := 400 |}, [u]).
Proof.
  intros env u.
  apply (second_registration_refused env env "a@x.io" "secret" "other" [] [u]
           {| Register.key := "message";
              Register.text := "User registered successfully";
              Register.status := 201 |} 0); reflexivity.
Defined.

(** X10. Validation comes before the database: a request with a field
    absent or empty is answered with the 400 validation error and writes
    nothing, whether or not the database could be reached. *)
Theorem missing_field_answered_before_connecting `{Bcrypt}
    (env : Register.Env) (body : Register.Body) (st : list User.IUser) :
  opt_truthy (Register.email body) && opt_truthy (Register.password body)
    = false ->
  Register.POST env (Return body) st
  = (Return {| Register.key := "error";
               Register.text := "Email and password are required";
               Register.status := 400 |}, st).
Proof.
  intros Hm. destruct body as [[e|] [pw|]]; cbn in Hm; try reflexivity.
  unfold Register.POST, User.db_try, User.db_bind, User.db_lift, User.db_ret.
  cbn. destruct (str_truthy e); cbn in *; [rewrite Hm|]; reflexivity.
Qed.

Lemma missing_field_answered_before_connecting_witness :
  Register.POST
    {| Register.connect := Throw Db.connection_failed; Register.oid := 7;
       Register.now := 3; Register.salt := "salt" |}
    (Return {| Register.email := Some "a@x.io"; Register.password := None |})
    []
  = (Return {| Register.key := "error";
               Register.text := "Email and password are required";
               Register.status := 400 |}, []).
Proof.
  apply (missing_field_answered_before_connecting
           {| Register.connect := Throw Db.connection_failed; Register.oid := 7;
              Register.now := 3; Register.salt := "salt" |}
           {| Register.email := Some "a@x.io"; Register.password := None |} []).
  reflexivity.
Defined.

(** X11. Whatever the request and the environment, the handler answers
    with one of four fixed bodies; the text of an internal error never
    reaches the response. *)
Theorem POST_answers_are_fixed `{Bcrypt} (env : Register.Env)
    (json : outcome Register.Body) (st : list User.IUser) :
  exists resp st',
    Register.POST env json st = (Return resp, st') /\
    In resp
      [ {| Register.key := "error";
           Register.text := "Email and password are required";
           Register.status := 400 |};
        {| Register.key := "error"; Register.text := "Email already exists";
           Register.status := 400 |};
        {| Register.key := "message";
           Register.text := "User registered successfully";
           Register.status := 201 |};
        {| Register.key := "error"; Register.text := "Failed to register user";
           Register.status := 500 |} ].
Proof.
  destruct (POST_total env json st) as (resp & st' & Hp).
  exists resp, st'. split; [exact Hp|].
  apply POST_cases in Hp
    as [(-> & _) | [(-> & _) | [(-> & _) | (-> & _)]]]; cbn; auto.
Qed.

(** ** Further properties of the route middleware *)

Section RouteFacts.
Import Middleware.

Lemma strip_append l : forall s t, strip l s = Some t -> s = String.append l t.
Proof.
  induction l as [|a l IH]; intros s t; cbn.
  - intros [= ->]. reflexivity.
  - destruct s as [|b s]; [discriminate|].
    destruct (Ascii.eqb a b) eqn:E; [|discriminate].
    apply Ascii.eqb_eq in E. subst b. intros Hs.
    rewrite (IH _ _ Hs). reflexivity.
Qed.

Lemma prefix_append a : forall s,
  String.prefix a s = true <-> exists t, s = String.append a t.
Proof.
  induction a as [|c a IH]; intros s.
  - split; [intros _; exists s; reflexivity | intros _; destruct s; reflexivity].
  - destruct s as [|d s]; cbn.
    + split; [discriminate | intros [t Ht]; discriminate Ht].
    + destruct (ascii_dec c d) as [->|Hne].
      * rewrite IH. split; intros [t Ht]; exists t.
        -- rewrite Ht. reflexivity.
        -- injection Ht as Ht. exact Ht.
      * split; [discriminate|]. intros [t Ht]. injection Ht as Hc _.
        congruence.
Qed.

(** A pathname under the data route is under none of the excluded roots. *)
Lemma data_route_not_excluded rest t :
  strip "_next/data/" rest = Some t ->
  rmatch excluded_roots rest (fun _ => true) = false.
Proof.
  intros Hs. apply strip_append in Hs. subst rest. reflexivity.
Qed.

Lemma excluded_not_selected pathname :
  excluded pathname = true -> selects pathname = false.
Proof.
  unfold excluded, selects, full_match, matcher. cbn [rmatch].
  destruct (strip "/" pathname) as [rest|]; [|discriminate].
  intros Hex. rewrite Hex. cbn [negb andb]. rewrite orb_false_r.
  destruct (strip "_next/data/" rest) as [t|] eqn:Hd; [|reflexivity].
  rewrite (data_route_not_excluded _ _ Hd) in Hex. discriminate Hex.
Qed.

Lemma api_excluded pathname :
  startsWith pathname "/api" = true -> excluded pathname = true.
Proof.
  unfold startsWith. intros Hp. apply prefix_append in Hp as [t ->].
  reflexivity.
Qed.

End RouteFacts.

(** X12. No pathname under one of the excluded roots is selected by the
    matcher; in particular nothing under [/api] is, so the callback's
    [/api/auth] and [/api/videos] cases are never consulted for a request
    of the middleware. *)
Theorem excluded_paths_bypass_middleware (token : option Middleware.JWT)
    (pathname : string) :
  Middleware.excluded pathname = true \/ startsWith pathname "/api" = true ->
  Middleware.selects pathname = false /\
  Middleware.guard token pathname = None.
Proof.
  intros Hex.
  assert (Hs : Middleware.selects pathname = false).
  { apply excluded_not_selected. destruct Hex as [Hex | Hapi];
      [exact Hex | apply api_excluded, Hapi]. }
  split; [exact Hs|]. unfold Middleware.guard. rewrite Hs. reflexivity.
Qed.

Lemma excluded_paths_bypass_middleware_witness :
  Middleware.selects "/api/videos " = false /\
  Middleware.guard None "/api/videos " = None.
Proof.
  apply (excluded_paths_bypass_middleware None "/api/videos ").
  right. reflexivity.
Defined.

(** X13. The predicate matches by prefix: a request is authorized exactly
    when it carries a token, or its pathname is [/], or its pathname
    begins with one of the four public roots, whatever follows the root
    (so [/loginx] and [/api/authorize] are public as well). *)
Theorem authorized_exactly (token : option Middleware.JWT) (pathname : string) :
  Middleware.authorized token pathname = true <->
  is_Some token \/ pathname = "/" \/
  exists root rest,
    In root ["/api/auth"; "/login"; "/register"; "/api/videos"] /\
    pathname = String.append root rest.
Proof.
  unfold Middleware.authorized, startsWith. split.
  - destruct (String.prefix "/api/auth" pathname) eqn:E1.
    { apply prefix_append in E1 as [t ->]. intros _. right; right.
      exists "/api/auth", t. cbn. auto. }
    destruct (String.prefix "/login" pathname) eqn:E2.
    { apply prefix_append in E2 as [t ->]. intros _. right; right.
      exists "/login", t. cbn. auto. }
    destruct (String.prefix "/register" pathname) eqn:E3.
    { apply prefix_append in E3 as [t ->]. intros _. right; right.
      exists "/register", t. cbn. auto. }
    cbn [orb].
    destruct (String.eqb pathname "/") eqn:E4.
    { apply String.eqb_eq in E4. auto. }
    destruct (String.prefix "/api/videos" pathname) eqn:E5.
    { apply prefix_append in E5 as [t ->]. intros _. right; right.
      exists "/api/videos", t. cbn. auto 6. }
    cbn [orb]. destruct token; [eauto | discriminate].
  - intros [[t ->] | [-> | (root & rest & Hin & ->)]].
    + destruct (_ || _ || _); [reflexivity|]. destruct (_ || _); reflexivity.
    + reflexivity.
    + assert (Hp : String.prefix root (String.append root rest) = true)
        by (apply prefix_append; eauto).
      cbn in Hin. destruct Hin as [<- | [<- | [<- | [<- | []]]]];
        rewrite Hp; rewrite ?orb_true_r; cbn [orb]; reflexivity.
Qed.

(** X14. Every pathname the matcher selects contains a blank. *)
Theorem selected_paths_have_blank (pathname : string) :
  Middleware.selects pathname = true ->
  Middleware.str_mem " " pathname = true.
Proof. apply blank_in_third. Qed.

Lemma selected_paths_have_blank_witness :
  Middleware.str_mem " " "/dashboard " = true.
Proof.
  apply (selected_paths_have_blank "/dashboard "). reflexivity.
Defined.

(** ** The upload widget *)

Section UploadFacts.
Import FileUpload.
Variable round_percent : N -> N -> Z.

Lemma includes_In l s : includes l s = true <-> In s l.
Proof.
  unfold includes. rewrite existsb_exists. split.
  - intros (x & Hin & He). apply String.eqb_eq in He. congruence.
  - intros Hin. exists s. split; [exact Hin | apply String.eqb_refl].
Qed.

Lemma handle_uploading ft e st :
  uploading (fst (handle round_percent ft e st)) =
    uploading st && negb (ends_upload e).
Proof.
  destruct e as [f | | evt | msg | r]; cbn.
  - unfold validateFile. destruct ft.
    + destruct (negb _); [|destruct (_ <? _)%N]; cbn; apply eq_sym, andb_true_r.
    + destruct (negb _); [|destruct (_ <? _)%N]; cbn; apply eq_sym, andb_true_r.
  - apply eq_sym, andb_true_r.
  - unfold handleProgress. destruct (lengthComputable evt); cbn;
      apply eq_sym, andb_true_r.
  - apply eq_sym, andb_false_r.
  - apply eq_sym, andb_false_r.
Qed.

Lemma run_cons ft e es st :
  run round_percent ft (e :: es) st =
    (fst (run round_percent ft es (fst (handle round_percent ft e st))),
     snd (handle round_percent ft e st)
       ++ snd (run round_percent ft es (fst (handle round_percent ft e st)))).
Proof.
  cbn. destruct (handle round_percent ft e st) as [st1 out1]. cbn.
  destruct (run round_percent ft es st1) as [st2 out2]. reflexivity.
Qed.

Lemma run_uploading ft es : forall st,
  uploading (fst (run round_percent ft es st)) =
    uploading st && negb (existsb ends_upload es).
Proof.
  induction es as [|e es IH]; intros st.
  - cbn. apply eq_sym, andb_true_r.
  - rewrite run_cons. cbn [fst existsb]. rewrite IH, handle_uploading.
    rewrite negb_orb. apply eq_sym, andb_assoc.
Qed.

Lemma reported_app o1 o2 : reported (o1 ++ o2) = reported o1 ++ reported o2.
Proof. unfold reported. apply flat_map_app. Qed.

Lemma run_reported ft es : forall st,
  reported (snd (run round_percent ft es st)) = successes es.
Proof.
  induction es as [|e es IH]; intros st; [reflexivity|].
  rewrite run_cons. cbn [snd]. rewrite reported_app, IH.
  destruct e as [f | | evt | msg | r]; cbn; try reflexivity.
  unfold handleProgress. destruct (lengthComputable evt); reflexivity.
Qed.

End UploadFacts.

(** X15. [validateFile] accepts a file exactly when, for a video widget,
    its type begins with [video/] and its size is at most 104857600
    bytes, and for an image widget, its type is one of the three listed
    and its size is at most 5242880 bytes.  An accepted file leaves the
    state as it was (an error shown earlier stays); a rejected one sets
    one of the four messages and leaves [uploading] alone. *)
Theorem validateFile_exactly (fileType : FileUpload.FileType)
    (file : FileUpload.File) (st : FileUpload.State) :
  let r := FileUpload.validateFile fileType file st in
  (fst r = true <->
   match fileType with
   | FileUpload.video =>
       startsWith (FileUpload.type file) "video/" = true /\
       (FileUpload.size file <= 104857600)%N
   | FileUpload.image =>
       In (FileUpload.type file) ["image/jpeg"; "image/png"; "image/gif"] /\
       (FileUpload.size file <= 5242880)%N
   end) /\
  (fst r = true -> snd r = st) /\
  (fst r = false ->
   FileUpload.uploading (snd r) = FileUpload.uploading st /\
   exists msg,
     FileUpload.error (snd r) = Some msg /\
     In msg ["Please upload a video file"; "Video must be less than 100MB";
             "Please upload an image file"; "Image must be less than 5MB"]).
Proof.
  intros r. subst r. unfold FileUpload.validateFile.
  change (100 * 1024 * 1024)%N with 104857600%N.
  change (5 * 1024 * 1024)%N with 5242880%N.
  assert (Hrej : forall msg,
    In msg ["Please upload a video file"; "Video must be less than 100MB";
            "Please upload an image file"; "Image must be less than 5MB"] ->
    (false = true -> FileUpload.setError (Some msg) st = st) /\
    (false = false ->
     FileUpload.uploading (FileUpload.setError (Some msg) st)
       = FileUpload.uploading st /\
     exists msg',
       FileUpload.error (FileUpload.setError (Some msg) st) = Some msg' /\
       In msg' ["Please upload a video file"; "Video must be less than 100MB";
                "Please upload an image file"; "Image must be less than 5MB"])).
  { intros msg Hin. split; [discriminate|]. intros _.
    split; [reflexivity|]. exists msg. split; [reflexivity | exact Hin]. }
  assert (Hacc : (true = true -> st = st) /\
                 (true = false ->
                  FileUpload.uploading st = FileUpload.uploading st /\
                  exists msg,
                    FileUpload.error st = Some msg /\
                    In msg ["Please upload a video file";
                            "Video must be less than 100MB";
                            "Please upload an image file";
                            "Image must be less than 5MB"])).
  { split; [reflexivity | discriminate]. }
  destruct fileType.
  - pose proof (includes_In FileUpload.validTypes (FileUpload.type file)) as Hi.
    destruct (FileUpload.includes _ _) eqn:Ei; cbn [negb].
    + destruct (5242880 <? FileUpload.size file)%N eqn:Es; cbn [fst snd].
      * apply N.ltb_lt in Es. split; [|apply Hrej; cbn; auto].
        split; [discriminate|]. intros [_ Hle]. lia.
      * apply N.ltb_ge in Es. split; [|exact Hacc].
        split; [|reflexivity]. intros _. split; [apply Hi; reflexivity | exact Es].
    + cbn [fst snd]. split; [|apply Hrej; cbn; auto].
      split; [discriminate|]. intros [Hin _]. apply Hi in Hin. discriminate Hin.
  - destruct (startsWith (FileUpload.type file) "video/") eqn:Ei; cbn [negb].
    + destruct (104857600 <? FileUpload.size file)%N eqn:Es; cbn [fst snd].
      * apply N.ltb_lt in Es. split; [|apply Hrej; cbn; auto].
        split; [discriminate|]. intros [_ Hle]. lia.
      * apply N.ltb_ge in Es. split; [|exact Hacc].
        split; [|reflexivity]. intros _. split; [reflexivity | exact Es].
    + cbn [fst snd]. split; [|apply Hrej; cbn; auto].
      split; [discriminate|]. intros [Hin _]. discriminate Hin.
Qed.

(** X16. No handler ever sets [uploading]: after any sequence of events
    it is true only if it was true before and no upload ended since, so
    from the initial state it is never true and the spinner is never
    shown. *)
Theorem uploading_never_set (round_percent : N -> N -> Z)
    (fileType : FileUpload.FileType) (es : list FileUpload.event)
    (st : FileUpload.State) :
  FileUpload.uploading (fst (FileUpload.run round_percent fileType es st)) =
    FileUpload.uploading st && negb (existsb FileUpload.ends_upload es) /\
  FileUpload.uploading
    (fst (FileUpload.run round_percent fileType es FileUpload.initial)) = false.
Proof.
  split; [apply run_uploading|]. rewrite run_uploading. reflexivity.
Qed.

(** X17. The parent's [onSuccess] is called once for each successful
    upload, in order, with the response of that upload, and for nothing
    else. *)
Theorem successes_are_reported (round_percent : N -> N -> Z)
    (fileType : FileUpload.FileType) (es : list FileUpload.event)
    (st : FileUpload.State) :
  FileUpload.reported (snd (FileUpload.run round_percent fileType es st))
  = FileUpload.successes es.
Proof. apply run_reported. Qed.

(** ** Media upload authentication *)

Section MediaFacts.
Import ImageKit.

Lemma params_lookup p :
  params_json p !! "signature" = Some (JStr (signature p)) /\
  params_json p !! "expire" = Some (JNum (expire p)) /\
  params_json p !! "token" = Some (JStr (token p)).
Proof.
  unfold params_json. split; [|split].
  - rewrite lookup_insert_ne by discriminate.
    rewrite lookup_insert_ne by discriminate. apply lookup_insert_eq.
  - rewrite lookup_insert_ne by discriminate. apply lookup_insert_eq.
  - apply lookup_insert_eq.
Qed.

End MediaFacts.

(** X18. The client behind the route: when the SDK returns parameters the
    [authenticator] hands exactly their signature, expiry and token to the
    upload provider; when the SDK throws, the route answers 500 and the
    [authenticator] throws its generic error. *)
Theorem authenticator_behind_route
    (stringify : gmap string ImageKit.JsVal -> string)
    (sdk : outcome ImageKit.AuthenticationParameters) :
  ImageKit.authenticator
    (Return (ImageKit.received stringify (ImageKit.GET sdk)))
  = match sdk with
    | Return p =>
        Return {| ImageKit.Credentials.signature :=
                    Some (ImageKit.JStr (ImageKit.signature p));
                  ImageKit.Credentials.expire :=
                    Some (ImageKit.JNum (ImageKit.expire p));
                  ImageKit.Credentials.token :=
                    Some (ImageKit.JStr (ImageKit.token p)) |}
    | Throw _ => Throw ImageKit.authentication_failed
    end.
Proof.
  destruct sdk as [p|e].
  - unfold ImageKit.authenticator, ImageKit.received, ImageKit.GET.
    cbn [ImageKit.Response.ok ImageKit.Response.status ImageKit.Response.json
         ImageKit.Response.text ImageKit.status ImageKit.body
         mbind outcome_bind try_catch Nat.leb andb negb].
    destruct (params_lookup p) as (-> & -> & ->). reflexivity.
  - unfold ImageKit.authenticator, ImageKit.received, ImageKit.GET.
    cbn [ImageKit.Response.ok ImageKit.Response.status ImageKit.Response.json
         ImageKit.Response.text ImageKit.status ImageKit.body
         mbind outcome_bind try_catch Nat.leb andb negb].
    reflexivity.
Qed.

(** X19. Whatever goes wrong in the [authenticator], the error it throws
    is the one generic error; the status and the body text of the
    response never reach its caller.  When a response was received, a
    failure means its status was outside 200-299, or its body was not
    JSON, or its body was [null]. *)
Theorem authenticator_failure_is_generic
    (fetch : outcome ImageKit.Response.t) (err : JsError) :
  ImageKit.authenticator fetch = Throw err ->
  err = ImageKit.authentication_failed /\
  (forall r, fetch = Return r ->
     ImageKit.Response.ok r = false \/
     (exists e, ImageKit.Response.json r = Throw e) \/
     ImageKit.Response.json r = Return ImageKit.JNull).
Proof.
  unfold ImageKit.authenticator. destruct fetch as [r|e]; cbn.
  - destruct (ImageKit.Response.ok r) eqn:Eok; cbn.
    + destruct (ImageKit.Response.json r) as [[|o|]|e] eqn:Ej; cbn.
      * intros [= <-]. split; [reflexivity|]. intros r' [= <-]. auto.
      * intros Hd. discriminate Hd.
      * intros Hd. discriminate Hd.
      * intros [= <-]. split; [reflexivity|]. intros r' [= <-]. eauto.
    + destruct (ImageKit.Response.text r); cbn; intros [= <-];
        (split; [reflexivity|]); intros r' [= <-]; auto.
  - intros [= <-]. split; [reflexivity|]. intros r' Hr. discriminate Hr.
Qed.

Lemma authenticator_failure_is_generic_witness :
  let r := {| ImageKit.Response.status := 200;
              ImageKit.Response.text := Return "null";
              ImageKit.Response.json := Return ImageKit.JNull |} in
  ImageKit.authenticator (Return r) = Throw ImageKit.authentication_failed /\
  ImageKit.authentication_failed = ImageKit.authentication_failed /\
  (forall r', Return r = Return r' ->
     ImageKit.Response.ok r' = false \/
     (exists e, ImageKit.Response.json r' = Throw e) \/
     ImageKit.Response.json r' = Return ImageKit.JNull).
Proof.
  intros r. split; [reflexivity|].
  apply (authenticator_failure_is_generic (Return r)). reflexivity.
Defined.

(** The three ways a received response fails, and a body that is
    neither an object nor [null]: it is accepted, with nothing in it. *)
Example authenticator_samples :
  ImageKit.authenticator
    (Return {| ImageKit.Response.status := 500;
               ImageKit.Response.text := Return "{}";
               ImageKit.Response.json := Return (ImageKit.JObject ∅) |})
    = Throw ImageKit.authentication_failed /\
  ImageKit.authenticator
    (Return {| ImageKit.Response.status := 200;
               ImageKit.Response.text := Return "<html>";
               ImageKit.Response.json := Throw (Error "Unexpected token <") |})
    = Throw ImageKit.authentication_failed /\
  ImageKit.authenticator
    (Return {| ImageKit.Response.status := 200;
               ImageKit.Response.text := Return "null";
               ImageKit.Response.json := Return ImageKit.JNull |})
    = Throw ImageKit.authentication_failed /\
  ImageKit.authenticator
    (Return {| ImageKit.Response.status := 200;
               ImageKit.Response.text := Return "5";
               ImageKit.Response.json := Return ImageKit.JOther |})
    = Return {| ImageKit.Credentials.signature := None;
                ImageKit.Credentials.expire := None;
                ImageKit.Credentials.token := None |}.
Proof. repeat split; reflexivity. Qed.

(** ** The Video model *)

(** X20. A video created without a [transformation] is stored with
    width 1080 and height 1920 and no quality, and one created without
    [controls] has them enabled. *)
Theorem video_defaults (input : Video.Input.t) (v : Video.IVideo) :
  Video.create input = Return v ->
  (Video.Input.transformation input = None ->
   Video.transformation v =
     {| Video.Transformation.height := QArith_base.inject_Z 1920;
        Video.Transformation.width := QArith_base.inject_Z 1080;
        Video.Transformation.quality := None |}) /\
  (Video.Input.controls input = None -> Video.controls v = true).
Proof.
  unfold Video.create.
  destruct (_ && _ && _ && _ && _); [|discriminate].
  intros [= <-]. cbn. split; intros ->; reflexivity.
Qed.

Lemma video_defaults_witness :
  let input := {| Video.Input.title := Some "t";
                  Video.Input.description := Some "d";
                  Video.Input.videoUrl := Some "https://v";
                  Video.Input.thumbnailUrl := Some "https://t";
                  Video.Input.controls := None;
                  Video.Input.transformation := None |} in
  exists v, Video.create input = Return v /\
    Video.transformation v =
      {| Video.Transformation.height := QArith_base.inject_Z 1920;
         Video.Transformation.width := QArith_base.inject_Z 1080;
         Video.Transformation.quality := None |} /\
    Video.controls v = true.
Proof.
  intros input. eexists. split; [reflexivity|].
  split; [apply (video_defaults input) | apply (video_defaults input)];
    reflexivity.
Defined.

